(** * pyDIC: the numerical core of the subset tracker (dic.py)

    A shallow embedding of [dic.py] and the properties its specification states.

    Modelling conventions.
    - float64 is modelled twice.  Where a property is an equality of values
      (a matrix, a pixel sum, a quotient) a finite float64 is a real number
      ([R]): rounding is idealised away, the equality holds of the program
      within floating tolerance, and a mean or a standard deviation is that
      of a non-empty array.  Where rounding can change what a property is
      about (the branch a comparison with zero takes, whether a pixel is
      finite) the function is embedded a second time, in module [F64], over
      binary64 numbers with the IEEE 754 operations, and the property is
      proved there.
    - In the real-number model a value that numpy can make non-finite out of
      finite inputs (a quotient with a zero divisor, an arcsine outside
      [-1, 1]) lives in [f64], which adds the two infinities and NaN to the
      reals.
    - A 2-D numpy array is a list of rows, a 3-D array a list of 2-D arrays;
      [has_shape h w a] says that [a] is rectangular with [h] rows of [w]
      entries.
    - A Python exception is a value of [exn]; a function that can raise
      returns a [result].
    - The functions of scipy whose values depend on the rounding of a
      transform or on a fitted spline are parameters of the functions that
      call them. *)

From Stdlib Require Import Floats.
From Stdlib Require Import Reals Lra Lia List Arith Bool ZArith.
Import ListNotations.

Open Scope R_scope.

(** ** Exceptions and results *)

Inductive exn : Type :=
| ValueError
| IndexError
| LinAlgError.

Inductive result (A : Type) : Type :=
| Ok (a : A)
| Raise (e : exn).

Arguments Ok {A} a.
Arguments Raise {A} e.

Definition bind {A B : Type} (m : result A) (k : A -> result B) : result B :=
  match m with
  | Ok a => k a
  | Raise e => Raise e
  end.

Notation "x <- m ;; k" := (bind m (fun x => k))
  (at level 61, m at next level, right associativity).
Notation "' pat <- m ;; k" := (bind m (fun x => match x with pat => k end))
  (at level 61, pat pattern, m at next level, right associativity).

Fixpoint mapM {A B : Type} (f : A -> result B) (l : list A) : result (list B) :=
  match l with
  | [] => Ok []
  | x :: t => y <- f x;; ys <- mapM f t;; Ok (y :: ys)
  end.

(** Element-wise traversal of two sequences of the same length. *)
Fixpoint zipM {A B C : Type} (f : A -> B -> result C)
         (a : list A) (b : list B) : result (list C) :=
  match a, b with
  | x :: a', y :: b' => z <- f x y;; zs <- zipM f a' b';; Ok (z :: zs)
  | _, _ => Ok []
  end.

Fixpoint zip_with {A B C : Type} (f : A -> B -> C)
         (a : list A) (b : list B) : list C :=
  match a, b with
  | x :: a', y :: b' => f x y :: zip_with f a' b'
  | _, _ => []
  end.

(** [seq[i]] for a non-negative index: IndexError when out of range. *)
Definition getitem {A : Type} (l : list A) (i : nat) : result A :=
  match nth_error l i with
  | Some x => Ok x
  | None => Raise IndexError
  end.

(** ** Numbers and arrays *)

Inductive f64 : Type :=
| Fin (r : R)
| Inf (negative : bool)
| NaN.

Definition vec := list R.
Definition array2 := list (list R).
Definition array3 := list array2.

Definition has_shape {A : Type} (h w : nat) (a : list (list A)) : Prop :=
  length a = h /\ Forall (fun row => length row = w) a.

Definition ravel (a : array2) : vec := concat a.

Definition np_sum (l : vec) : R := fold_right Rplus 0 l.

(** [np.mean] of a non-empty array: the sum of all entries over their
    number. *)
Definition np_mean (a : array2) : R :=
  np_sum (ravel a) / INR (length (ravel a)).

(** [a - c] for a scalar [c]. *)
Definition sub_scalar (a : array2) (c : R) : array2 :=
  map (map (fun x => x - c)) a.

(** [np.std]: the square root of the mean squared deviation from the mean. *)
Definition np_var (a : array2) : R :=
  np_mean (map (map (fun d => d * d)) (sub_scalar a (np_mean a))).

Definition np_std (a : array2) : R := sqrt (np_var a).

(** numpy broadcasting along one axis: equal lengths pair up, a length-1 axis
    is stretched, anything else is a ValueError. *)
Definition broadcast {A B C : Type} (f : A -> B -> result C)
           (a : list A) (b : list B) : result (list C) :=
  if (length a =? length b)%nat then zipM f a b
  else match a, b with
       | [x], _ => mapM (f x) b
       | _, [y] => mapM (fun x => f x y) a
       | _, _ => Raise ValueError
       end.

Definition np_binop (op : R -> R -> R) (a b : array2) : result array2 :=
  broadcast (broadcast (fun x y => Ok (op x y))) a b.

Definition np_mul : array2 -> array2 -> result array2 := np_binop Rmult.
Definition np_add : array2 -> array2 -> result array2 := np_binop Rplus.

(** ** zncc (dic.py, lines 14-26) *)

Definition zncc (im1 im2 : array2) : result R :=
  prod <- np_mul (sub_scalar im1 (np_mean im1)) (sub_scalar im2 (np_mean im2));;
  let nom := np_mean prod in
  let den := np_std im1 * np_std im2 in
  if Req_dec_T den 0 then Ok 0 else Ok (nom / den).

(** ** Indexing, shapes and the numerical primitives of numpy and scipy *)

Definition nrows (a : array2) : nat := length a.
Definition ncols (a : array2) : nat := length (hd [] a).
Definition shape (a : array2) : nat * nat := (nrows a, ncols a).
Definition size (a : array2) : nat := (nrows a * ncols a)%nat.

(** [a[i, j]] where the index is known to be in range; 0 stands for the
    zero padding of a convolution outside of it. *)
Definition at2 (a : array2) (i j : nat) : R := nth j (nth i a []) 0.

Definition range (n : nat) : list nat := seq 0 n.
Definition arange (n : nat) : vec := map INR (range n).

(** [a[::-1, ::-1]] *)
Definition flip2 (a : array2) : array2 := rev (map (@rev R) a).

Definition transpose (a : array2) : array2 :=
  map (fun j => map (fun row => nth j row 0) a) (range (ncols a)).

(** Entry [(m, n)] of the full linear convolution of [im] with [k]:
    the sum over the kernel of [k[p, q] * im[m - p, n - q]]. *)
Definition conv_full_at (im k : array2) (m n : nat) : R :=
  np_sum (flat_map (fun p =>
            map (fun q =>
                   if ((p <=? m) && (q <=? n))%nat
                   then at2 k p q * at2 im (m - p) (n - q)
                   else 0)
                (range (ncols k)))
          (range (nrows k))).

(** The values of [scipy.signal.convolve2d(im, k, mode='same')]: the centred
    window of the full convolution that has the shape of [im]. *)
Definition convolve2d_same (im k : array2) : array2 :=
  map (fun i =>
         map (fun j => conv_full_at im k (i + (nrows k - 1) / 2) (j + (ncols k - 1) / 2))
             (range (ncols im)))
      (range (nrows im)).

(** A nested sequence that numpy reads as a 2-D array: it has a first row, and
    every row has the length of that one. *)
Definition is_2d (a : array2) : bool :=
  match a with
  | [] => false
  | row :: rest => forallb (fun r => (length r =? length row)%nat) rest
  end.

(** [scipy.signal.convolve2d(in1, in2, mode='same')]: a ValueError unless both
    inputs are 2-D arrays. *)
Definition convolve2d (in1 in2 : array2) : result array2 :=
  if is_2d in1 && is_2d in2 then Ok (convolve2d_same in1 in2)
  else Raise ValueError.

(** The part of the full convolution on which [k] lies wholly inside [im]. *)
Definition convolve_valid (im k : array2) : array2 :=
  map (fun i =>
         map (fun j => conv_full_at im k (i + (nrows k - 1)) (j + (ncols k - 1)))
             (range (ncols im - ncols k + 1)))
      (range (nrows im - nrows k + 1)).

(** One axis of a valid-mode result, for inputs of lengths [n1] and [n2] along
    it: the shorter input slides over the longer one.  The result has
    [max - min + 1] entries, and its entry [i] pairs index [p] of the shorter
    input with index [i + (min - 1) - p] of the longer one.  Against an axis
    of length 1 this is numpy's broadcasting. *)
Definition valid_len (n1 n2 : nat) : nat := (Nat.max n1 n2 - Nat.min n1 n2 + 1)%nat.

Definition valid_idx1 (n1 n2 i p : nat) : nat :=
  if (n2 <=? n1)%nat then (i + (n2 - 1) - p)%nat else p.

Definition valid_idx2 (n1 n2 i p : nat) : nat :=
  if (n2 <=? n1)%nat then p else (i + (n1 - 1) - p)%nat.

Definition valid_at (in1 in2 : array2) (i j : nat) : R :=
  np_sum (flat_map (fun p =>
            map (fun q =>
                   at2 in1 (valid_idx1 (nrows in1) (nrows in2) i p)
                           (valid_idx1 (ncols in1) (ncols in2) j q)
                   * at2 in2 (valid_idx2 (nrows in1) (nrows in2) i p)
                             (valid_idx2 (ncols in1) (ncols in2) j q))
                (range (Nat.min (ncols in1) (ncols in2))))
          (range (Nat.min (nrows in1) (nrows in2)))).

Definition valid_window (in1 in2 : array2) : array2 :=
  map (fun i =>
         map (fun j => valid_at in1 in2 i j)
             (range (valid_len (ncols in1) (ncols in2))))
      (range (valid_len (nrows in1) (nrows in2))).

(** [scipy.signal.fftconvolve(in1, in2, mode='valid')] with the values of
    exact arithmetic, which the transforms return up to rounding.  Empty
    inputs give an empty result.  The axes on which one input has length 1
    are left to broadcasting.  On the other axes one input must be at least
    as long as the other on every one of them, otherwise the call is a
    ValueError; where it is the second input that is the longer one, scipy
    swaps the two, which changes no value. *)
Definition fftconvolve_valid (in1 in2 : array2) : result array2 :=
  if ((size in1 =? 0) || (size in2 =? 0))%nat then Ok []
  else
    let axes := filter (fun '(n1, n2) => negb (n1 =? 1)%nat && negb (n2 =? 1)%nat)
                       [(nrows in1, nrows in2); (ncols in1, ncols in2)] in
    let ok1 := forallb (fun '(n1, n2) => (n2 <=? n1)%nat) axes in
    let ok2 := forallb (fun '(n1, n2) => (n1 <=? n2)%nat) axes in
    if ok1 || ok2 then Ok (valid_window in1 in2) else Raise ValueError.

(** The scan of [argmax]: the running maximum is replaced only by a strictly
    larger entry. *)
Fixpoint argmax_scan (best : R) (besti i : nat) (l : vec) : nat :=
  match l with
  | [] => besti
  | x :: t =>
      if Rlt_dec best x then argmax_scan x i (S i) t
      else argmax_scan best besti (S i) t
  end.

(** [a.argmax()] on the flattened array; an empty array is a ValueError. *)
Definition np_argmax (l : vec) : result nat :=
  match l with
  | [] => Raise ValueError
  | x :: t => Ok (argmax_scan x 0 1 t)
  end.

Definition np_unravel_index (k : nat) (shp : nat * nat) : result (nat * nat) :=
  let '(nr, nc) := shp in
  if (k <? nr * nc)%nat then Ok ((k / nc)%nat, (k mod nc)%nat)
  else Raise ValueError.

Definition dotp (u v : vec) : R := np_sum (zip_with Rmult u v).

Definition column (j : nat) (a : array2) : vec := map (fun row => nth j row 0) a.

(** [np.dot] of two matrices: ValueError unless every row of [a] is as long as
    [b] has rows. *)
Definition np_dot (a b : array2) : result array2 :=
  if forallb (fun row => (length row =? nrows b)%nat) a
  then Ok (map (fun row => map (fun j => dotp row (column j b)) (range (ncols b))) a)
  else Raise ValueError.

(** [np.dot] of a matrix and a vector. *)
Definition np_dot_vec (a : array2) (v : vec) : result vec :=
  if forallb (fun row => (length row =? length v)%nat) a
  then Ok (map (fun row => dotp row v) a)
  else Raise ValueError.

(** [np.linalg.inv] on the 3x3 matrices this module inverts: the adjugate over
    the determinant, and LinAlgError for a singular matrix. *)
Definition np_linalg_inv (m : array2) : result array2 :=
  match m with
  | [[a; b; c]; [d; e; f]; [g; h; i]] =>
      let det := a * (e * i - f * h) - b * (d * i - f * g) + c * (d * h - e * g) in
      if Req_dec_T det 0 then Raise LinAlgError
      else Ok [[(e * i - f * h) / det; (c * h - b * i) / det; (b * f - c * e) / det];
               [(f * g - d * i) / det; (a * i - c * g) / det; (c * d - a * f) / det];
               [(d * h - e * g) / det; (b * g - a * h) / det; (a * e - b * d) / det]]
  | _ => Raise LinAlgError
  end.

(** [np.arcsin]: outside [-1, 1] the result is nan (with a warning); no
    exception is raised. *)
Definition np_arcsin (x : R) : f64 :=
  if Rle_dec (-1) x then
    if Rle_dec x 1 then Fin (asin x) else NaN
  else NaN.

(** float64 division: a zero divisor raises nothing, it gives an infinity of
    the sign of the dividend, or nan for 0/0. *)
Definition np_divide (a b : R) : f64 :=
  if Req_dec_T b 0 then
    if Req_dec_T a 0 then NaN
    else if Rlt_dec a 0 then Inf true else Inf false
  else Fin (a / b).

Definition f64_mul (x y : f64) : f64 :=
  match x, y with
  | Fin a, Fin b => Fin (a * b)
  | Fin a, Inf s | Inf s, Fin a =>
      if Req_dec_T a 0 then NaN
      else if Rlt_dec a 0 then Inf (negb s) else Inf s
  | Inf s, Inf t => Inf (xorb s t)
  | _, _ => NaN
  end.

Definition f64_sub (x y : f64) : f64 :=
  match x, y with
  | Fin a, Fin b => Fin (a - b)
  | Fin _, Inf t => Inf (negb t)
  | Inf s, Fin _ => Inf s
  | Inf s, Inf t => if Bool.eqb s t then NaN else Inf s
  | _, _ => NaN
  end.

(** [a.reshape((h, w))] of a flat array: ValueError unless it has [h * w]
    entries. *)
Fixpoint chunks (w n : nat) (l : vec) : array2 :=
  match n with
  | O => []
  | S n' => firstn w l :: chunks w n' (skipn w l)
  end.

Definition reshape (l : vec) (shp : nat * nat) : result array2 :=
  let '(h, w) := shp in
  if (length l =? h * w)%nat then Ok (chunks w h l) else Raise ValueError.

(** A [for] loop over a list of indices that threads the loop's state. *)
Fixpoint for_each {S : Type} (idx : list nat) (body : nat -> S -> result S)
         (s : S) : result S :=
  match idx with
  | [] => Ok s
  | i :: rest => s' <- body i s;; for_each rest body s'
  end.

Fixpoint set_nth {A : Type} (i : nat) (v : A) (l : list A) : list A :=
  match l, i with
  | [], _ => []
  | _ :: t, O => v :: t
  | x :: t, S i' => x :: set_nth i' v t
  end.

(** [H[i, j] = v] for an index in range. *)
Definition setitem2 (H : array2) (i j : nat) (v : R) : array2 :=
  set_nth i (set_nth j v (nth i H [])) H.

Definition np_zeros (h w : nat) : array2 := repeat (repeat 0 w) h.
Definition np_ones (h w : nat) : array2 := repeat (repeat 1 w) h.

(** ** get_initial_guess (dic.py, lines 29-42) *)

Section InitialGuess.
(** [scipy.signal.fftconvolve(in1, in2, mode='valid')] as the library computes
    it: the surface it returns holds the sums of [fftconvolve_valid] up to the
    rounding of the transforms, so that which of two nearly equal entries is
    the larger is for the library to say. *)
Variable fftconvolve : array2 -> array2 -> result array2.

Definition get_initial_guess (target roi_image : array2) : result (vec * array2) :=
  let target := sub_scalar target (np_mean target) in
  let roi_image := sub_scalar (flip2 roi_image) (np_mean roi_image) in
  corr_fft <- fftconvolve target roi_image;;
  k <- np_argmax (ravel corr_fft);;
  '(r, c) <- np_unravel_index k (shape corr_fft);;
  Ok ([INR r; INR c], corr_fft).
End InitialGuess.

(** ** get_gradient (dic.py, lines 45-69) *)

(** The [kernel] argument: the string ['central_fd'], or a sequence of
    kernels, each a sequence of rows of numbers. *)
Inductive kernel_spec : Type :=
| central_fd
| custom (kernel : list array2).

Definition gauss_fd_kernel : array2 :=
  [[-0.14086616; -0.20863973; 0; 0.20863973; 0.14086616]].

Definition plain_fd_kernel : array2 :=
  [[1 / 12; -8 / 12; 0 / 12; 8 / 12; -1 / 12]].

Definition get_gradient (image : array2) (kernel : kernel_spec)
           (prefilter_gauss : bool) : result array3 :=
  kernels <-
    match kernel with
    | central_fd =>
        let x_kernel := if prefilter_gauss then gauss_fd_kernel else plain_fd_kernel in
        Ok (x_kernel, transpose x_kernel)
    | custom ks =>
        match ks with
        | [k0; k1] =>
            if (3 <=? length k0)%nat then Ok (k0, k1) else Raise ValueError
        | _ => Raise ValueError
        end
    end;;
  let '(x_kernel, y_kernel) := kernels in
  g_x <- convolve2d image x_kernel;;
  g_y <- convolve2d image y_kernel;;
  Ok [g_x; g_y].

(** ** jacobian_rigid (dic.py, lines 72-90) *)

Definition jacobian_rigid (h w : nat) : list array3 :=
  let ones := np_ones h w in
  let zeros := np_zeros h w in
  let x := repeat (arange w) h in
  let y := map (fun i => repeat (INR i) w) (range h) in
  [[zeros; ones; map (map Ropp) y];
   [ones; zeros; x]].

(** ** sd_images (dic.py, lines 93-107) *)

Definition sd_images (grad : array3) (jac : list array3) : result array3 :=
  match grad, jac with
  | [gx; gy], [jx; jy] =>
      sd_x <- mapM (np_mul gx) jx;;
      sd_y <- mapM (np_mul gy) jy;;
      broadcast np_add sd_x sd_y
  | _, _ => Raise ValueError
  end.

(** Two axis lengths that numpy can broadcast against each other. *)
Definition broadcastable (n m : nat) : Prop := n = m \/ n = 1%nat \/ m = 1%nat.

(** A gradient pair of [h] x [w] images, and a Jacobian of two stacks of [n]
    planes of [h] x [w] entries each. *)
Definition grad_shape (h w : nat) (grad : array3) : Prop :=
  length grad = 2%nat /\ Forall (has_shape h w) grad.

Definition jac_shape (n h w : nat) (jac : list array3) : Prop :=
  length jac = 2%nat /\
  Forall (fun j => length j = n /\ Forall (has_shape h w) j) jac.

(** ** hessian (dic.py, lines 110-129) *)

Definition hessian (sd_im : array3) (n_param : nat) : result array2 :=
  for_each (range n_param)
    (fun i H =>
       h1 <- getitem sd_im i;;
       for_each (range n_param)
         (fun j H =>
            if (i <=? j)%nat then
              h2 <- getitem sd_im j;;
              p <- np_mul h1 h2;;
              Ok (setitem2 H i j (np_sum (ravel p)))
            else
              Ok (setitem2 H i j (at2 H j i)))
         H)
    (np_zeros n_param n_param).

(** The pixel sum of the product of the steepest-descent images [i] and [j]:
    what the upper triangle of the Hessian is specified to hold. *)
Definition sd_product_sum (sd_im : array3) (i j : nat) : R :=
  np_sum (ravel (zip_with (zip_with Rmult) (nth i sd_im []) (nth j sd_im []))).

(** The value every entry of the Hessian ends up with: the upper-triangle sum
    of its unordered index pair. *)
Definition hessian_entry (sd_im : array3) (i j : nat) : R :=
  sd_product_sum sd_im (Nat.min i j) (Nat.max i j).

(** The two loop bodies of [hessian] as pure updates of the matrix, for
    indices at which nothing raises. *)
Definition hessian_cell (sd_im : array3) (i : nat) (H : array2) (j : nat) : array2 :=
  setitem2 H i j (if (i <=? j)%nat then sd_product_sum sd_im i j else at2 H j i).

Definition hessian_row (sd_im : array3) (n_param : nat) (H : array2) (i : nat) : array2 :=
  fold_left (hessian_cell sd_im i) (range n_param) H.

(** ** rigid_transform_matrix (dic.py, lines 132-143) *)

Definition rigid_transform_matrix (p : vec) : result array2 :=
  p0 <- getitem p 0;;
  p1 <- getitem p 1;;
  p2 <- getitem p 2;;
  Ok [[cos p2; - sin p2; p1];
      [sin p2; cos p2; p0];
      [0; 0; 1]].

(** ** param_from_rt_matrix (dic.py, lines 146-160) *)

(** [row[-1]] *)
Definition getitem_last (row : vec) : result R :=
  match row with
  | [] => Raise IndexError
  | _ => Ok (last row 0)
  end.

(** [np.arcsin] raises no ValueError, so the handler that would fall back on
    the arccosine is never entered. *)
Definition param_from_rt_matrix (matrix : array2) : result (list f64) :=
  row1 <- getitem matrix 1;;
  vy <- getitem_last row1;;
  row0 <- getitem matrix 0;;
  ux <- getitem_last row0;;
  m10 <- getitem row1 0;;
  let phi := np_arcsin m10 in
  Ok [Fin vy; Fin ux; phi].

(** ** coordinate_warp (dic.py, lines 164-178) *)

Definition coordinate_warp (matrix : array2) (output_shape : nat * nat)
  : result (vec * vec) :=
  let '(h, w) := output_shape in
  let x_array := concat (repeat (arange w) h) in
  let y_array := flat_map (fun y => repeat y w) (arange h) in
  let xy_h := [x_array; y_array; repeat 1 (w * h)] in
  uv_h <- np_dot matrix xy_h;;
  let uv := removelast uv_h in
  u <- getitem uv 0;;
  v <- getitem uv 1;;
  Ok (u, v).

Definition identity_3x3 : array2 := [[1; 0; 0]; [0; 1; 0]; [0; 0; 1]].

(** The canonical grid of an [h] x [w] frame in row-major order: pixel number
    [k] lies in column [k mod w] of row [k / w]. *)
Definition canonical_grid (h w : nat) : vec * vec :=
  (map (fun k => INR (k mod w)) (range (h * w)),
   map (fun k => INR (k / w)) (range (h * w))).

(** ** interpolate_warp (dic.py, lines 181-205) *)

Section Interpolation.
(** The bivariate spline of scipy: fitting one to an image with a given
    order, which can fail, and evaluating one at a point. *)
Variable spline : Type.
Variable RectBivariateSpline : array2 -> nat -> result spline.
Variable ev : spline -> R -> R -> R.

Definition interpolate_warp (xi yi : vec) (target : array2)
           (output_shape : nat * nat) (spl : option spline) (order : nat)
  : result array2 :=
  spl <- match spl with
         | Some s => Ok s
         | None => RectBivariateSpline target order
         end;;
  values <- broadcast (fun y x => Ok (ev spl y x)) yi xi;;
  reshape values output_shape.
End Interpolation.

(** ** get_error_image (dic.py, lines 208-221) *)

Definition get_error_image (f : array2) (f_stats : R * R) (g : array2)
  : result (list (list f64)) :=
  let '(f_, sd_f) := f_stats in
  let g_ := np_mean g in
  let sd_g := np_std g in
  let ratio := np_divide sd_f sd_g in
  broadcast (broadcast (fun a b => Ok (f64_sub (Fin a) b)))
            (sub_scalar f f_)
            (map (map (fun d => f64_mul ratio (Fin d))) (sub_scalar g g_)).

(** ** warp_update (dic.py, lines 242-255) *)

Definition warp_update (inv_H : array2) (b : vec) (warp : array2) : result array2 :=
  dp <- np_dot_vec inv_H b;;
  incr <- rigid_transform_matrix dp;;
  inverse_increment_warp <- np_linalg_inv incr;;
  np_dot warp inverse_increment_warp.
(** ** get_sd_error_vector (dic.py, lines 224-239) *)

(** The error image is taken to be finite here, as [get_error_image] returns
    it for a sample of nonzero standard deviation. *)
Definition get_sd_error_vector (sd_im : array3) (error_im : array2) (n_param : nat)
  : result vec :=
  for_each (range n_param)
    (fun i b =>
       h1 <- getitem sd_im i;;
       p <- np_mul h1 error_im;;
       Ok (set_nth i (np_sum (ravel p)) b))
    (repeat 0 n_param).

(** ** The statistics of zncc and get_error_image in float64 *)

Module F64.
Local Open Scope float_scope.

Definition image := list (list float).

(** The number of entries of an array as a float64. *)
Definition of_nat (n : nat) : float := of_uint63 (Uint63.of_Z (Z.of_nat n)).

Section Statistics.
(** [np.add.reduce] over all entries of an array.  numpy adds fewer than eight
    numbers from left to right ([sum_in_order] below) and longer arrays in
    blocks whose partial sums it adds pairwise; what is proved for every
    image is proved for every way of summing. *)
Variable sum : image -> float.

Definition np_mean (a : image) : float := sum a / of_nat (length (concat a)).

Definition sub_scalar (a : image) (c : float) : image :=
  map (map (fun x => x - c)) a.

Definition np_std (a : image) : float :=
  PrimFloat.sqrt (np_mean (map (map (fun d => d * d)) (sub_scalar a (np_mean a)))).

Definition np_mul : image -> image -> result image :=
  broadcast (broadcast (fun x y => Ok (x * y))).

(** zncc (dic.py, lines 14-26) *)
Definition zncc (im1 im2 : image) : result float :=
  prod <- np_mul (sub_scalar im1 (np_mean im1)) (sub_scalar im2 (np_mean im2));;
  let nom := np_mean prod in
  let den := np_std im1 * np_std im2 in
  if den =? 0 then Ok 0 else Ok (nom / den).

(** get_error_image (dic.py, lines 208-221) *)
Definition get_error_image (f : image) (f_stats : float * float) (g : image)
  : result image :=
  let '(f_, sd_f) := f_stats in
  let g_ := np_mean g in
  let sd_g := np_std g in
  broadcast (broadcast (fun a b => Ok (a - b)))
            (sub_scalar f f_)
            (map (map (fun d => sd_f / sd_g * d)) (sub_scalar g g_)).
End Statistics.

Definition sum_in_order (a : image) : float := fold_left PrimFloat.add (concat a) 0.

(** A pixel that is an infinity or NaN. *)
Definition not_finite (x : float) : Prop := PrimFloat.is_finite x = false.
End F64.

(** ** Reference values for the properties below *)

(** The pixel sum of the product of steepest-descent image [i] and the error
    image: what entry [i] of the right-hand side is specified to hold. *)
Definition sd_error_sum (sd_im : array3) (error_im : array2) (i : nat) : R :=
  np_sum (ravel (zip_with (zip_with Rmult) (nth i sd_im []) error_im)).


(** The grid an affine matrix [m] sends the canonical grid to: pixel number
    [k], at column [k mod w] of row [k / w], goes to the point whose x is row 0
    of [m] applied to (column, row, 1) and whose y is row 1 applied to it. *)
Definition affine_grid (m : array2) (h w : nat) : vec * vec :=
  (map (fun k => at2 m 0 0 * INR (k mod w) + at2 m 0 1 * INR (k / w) + at2 m 0 2)
       (range (h * w)),
   map (fun k => at2 m 1 0 * INR (k mod w) + at2 m 1 1 * INR (k / w) + at2 m 1 2)
       (range (h * w))).

(** The zero-mean cross-correlation of the ROI image with the window of the
    target whose top-left corner is at row [i], column [j]. *)
Definition cross_correlation_at (target roi_image : array2) (i j : nat) : R :=
  np_sum (flat_map (fun a =>
            map (fun b =>
                   (at2 roi_image a b - np_mean roi_image)
                   * (at2 target (i + a) (j + b) - np_mean target))
                (range (ncols roi_image)))
          (range (nrows roi_image))).

(** The deviations of the pixels from the mean, in row-major order. *)
Definition deviations (im : array2) : vec :=
  map (fun x => x - np_mean im) (ravel im).


(** The shape of an array written out in full. *)
Ltac concrete_shape := split; [reflexivity | repeat constructor].

(** ** Lemmas on traversals and shapes *)

Section Traversals.
Context {A B C : Type}.

Lemma zipM_ok (f : A -> B -> result C) (g : A -> B -> C) (a : list A) (b : list B) :
  Forall2 (fun x y => f x y = Ok (g x y)) a b ->
  zipM f a b = Ok (zip_with g a b).
Proof.
  induction 1 as [|x y a' b' Hxy _ IH]; simpl; [reflexivity|].
  now rewrite Hxy, IH.
Qed.

Lemma mapM_ok (f : A -> result B) (g : A -> B) (l : list A) :
  Forall (fun x => f x = Ok (g x)) l -> mapM f l = Ok (map g l).
Proof.
  induction 1 as [|x l' Hx _ IH]; simpl; [reflexivity|].
  now rewrite Hx, IH.
Qed.

Lemma zip_with_length (g : A -> B -> C) (a : list A) (b : list B) :
  length a = length b -> length (zip_with g a b) = length a.
Proof.
  revert b; induction a as [|x a IH]; intros [|y b] H; simpl in *;
    try discriminate; [reflexivity|].
  now rewrite IH by lia.
Qed.

Lemma broadcast_same (f : A -> B -> result C) (a : list A) (b : list B) :
  length a = length b -> broadcast f a b = zipM f a b.
Proof.
  intros H; unfold broadcast.
  now rewrite H, Nat.eqb_refl.
Qed.
End Traversals.

Lemma Forall2_same_length {A B : Type} (P : A -> B -> Prop) (a : list A) (b : list B) :
  length a = length b ->
  (forall x y, In x a -> In y b -> P x y) ->
  Forall2 P a b.
Proof.
  revert b; induction a as [|x a IH]; intros [|y b] Hlen HP; simpl in *;
    try discriminate; constructor.
  - apply HP; now left.
  - apply IH; [lia|]. intros; apply HP; now right.
Qed.

Lemma has_shape_row {A : Type} h w (a : list (list A)) row :
  has_shape h w a -> In row a -> length row = w.
Proof.
  intros [_ Hrows] Hin.
  rewrite Forall_forall in Hrows; now apply Hrows.
Qed.

(** On equally-shaped operands a broadcast operation that cannot fail on the
    entries never raises: it is the entry-wise operation. *)
Lemma broadcast2_same_shape {A B C : Type} (op : A -> B -> C) h w
      (a : list (list A)) (b : list (list B)) :
  has_shape h w a -> has_shape h w b ->
  broadcast (broadcast (fun x y => Ok (op x y))) a b
  = Ok (zip_with (zip_with op) a b).
Proof.
  intros Ha Hb.
  rewrite broadcast_same by (destruct Ha, Hb; congruence).
  apply zipM_ok.
  apply Forall2_same_length; [destruct Ha, Hb; congruence|].
  intros x y Hx Hy.
  assert (Hlen : length x = length y).
  { rewrite (has_shape_row _ _ _ _ Ha Hx), (has_shape_row _ _ _ _ Hb Hy); reflexivity. }
  rewrite broadcast_same by exact Hlen.
  apply zipM_ok.
  apply Forall2_same_length; [exact Hlen|reflexivity].
Qed.

Lemma np_binop_same_shape op h w a b :
  has_shape h w a -> has_shape h w b ->
  np_binop op a b = Ok (zip_with (zip_with op) a b).
Proof. apply broadcast2_same_shape. Qed.

Lemma map_map_shape {A B : Type} (f : A -> B) h w (a : list (list A)) :
  has_shape h w a -> has_shape h w (map (map f) a).
Proof.
  intros [Hh Hw]; split.
  - now rewrite length_map.
  - rewrite Forall_map. eapply Forall_impl; [|exact Hw].
    intros row Hrow; simpl. now rewrite length_map.
Qed.

Lemma sub_scalar_shape h w a c : has_shape h w a -> has_shape h w (sub_scalar a c).
Proof. apply map_map_shape. Qed.

Lemma zip_with2_shape {A B C : Type} (f : A -> B -> C) h w
      (a : list (list A)) (b : list (list B)) :
  has_shape h w a -> has_shape h w b -> has_shape h w (zip_with (zip_with f) a b).
Proof.
  intros [Ha Hra] [Hb Hrb]; subst h; split; [now apply zip_with_length|].
  revert b Hb Hrb; induction Hra as [|ra a Hlen _ IH]; intros [|rb b] Hb Hrb;
    simpl in *; try discriminate; constructor.
  - inversion Hrb; subst; apply zip_with_length; congruence.
  - inversion Hrb; subst; apply IH; [lia|assumption].
Qed.

(** ** Means and deviations *)

Lemma ravel_map (f : R -> R) (a : array2) : ravel (map (map f) a) = map f (ravel a).
Proof. unfold ravel; symmetry; apply concat_map. Qed.

Lemma zip_with_diag {A C : Type} (f : A -> A -> C) (l : list A) :
  zip_with f l l = map (fun x => f x x) l.
Proof. induction l as [|x l IH]; simpl; [reflexivity|now rewrite IH]. Qed.

Lemma np_sum_app (u v : vec) : np_sum (u ++ v) = np_sum u + np_sum v.
Proof. induction u as [|x u IH]; simpl; [ring|rewrite IH; ring]. Qed.

Lemma np_sum_flat_map {A : Type} (g : A -> vec) (l : list A) :
  np_sum (flat_map g l) = np_sum (map (fun p => np_sum (g p)) l).
Proof.
  induction l as [|p l IH]; simpl; [reflexivity|].
  now rewrite np_sum_app, IH.
Qed.

Lemma np_sum_map_ext_in {A : Type} (f g : A -> R) (l : list A) :
  (forall x, In x l -> f x = g x) -> np_sum (map f l) = np_sum (map g l).
Proof. intros Hfg; f_equal; now apply map_ext_in. Qed.

Lemma np_sum_squares_nonneg (l : vec) : 0 <= np_sum (map (fun d => d * d) l).
Proof.
  induction l as [|x l IH]; simpl; [lra|].
  pose proof (Rle_0_sqr x) as Hx; unfold Rsqr in Hx; lra.
Qed.


Lemma ravel_shape_length h w a : has_shape h w a -> length (ravel a) = (h * w)%nat.
Proof.
  intros [Hh Hw]; subst h; unfold ravel.
  induction Hw as [|row a Hrow _ IH]; simpl; [reflexivity|].
  now rewrite length_app, Hrow, IH.
Qed.



(** ** Flat samples in float64 *)

Section Float64.
Local Open Scope float_scope.

(** The classes of IEEE 754 that the primitive tests stand for. *)
Lemma is_finite_spec (x : float) :
  is_finite x = match Prim2SF x with
                | S754_zero _ | S754_finite _ _ _ => true
                | _ => false
                end.
Proof.
  unfold is_finite, is_nan, is_infinity.
  rewrite !FloatAxioms.eqb_spec, FloatAxioms.abs_spec.
  change (Prim2SF infinity) with (S754_infinity false).
  destruct (Prim2SF x) as [s|s| |s m e];
    [destruct s; reflexivity|destruct s; reflexivity|reflexivity|].
  unfold SFeqb, SFabs, SFcompare.
  rewrite Z.compare_refl, Pos.compare_cont_refl.
  destruct s; reflexivity.
Qed.

Lemma eqb_zero_spec (x : float) :
  (x =? 0) = true -> exists s, Prim2SF x = S754_zero s.
Proof.
  rewrite FloatAxioms.eqb_spec; change (Prim2SF 0) with (S754_zero false).
  destruct (Prim2SF x) as [s|s| |s m e]; try (destruct s; discriminate);
    try discriminate.
  intros _; now exists s.
Qed.

(** Zero times a finite number is zero. *)
Lemma mul_zero_finite (x y : float) :
  (x =? 0) = true -> is_finite y = true -> (x * y =? 0) = true /\ (y * x =? 0) = true.
Proof.
  intros Hx Hy; destruct (eqb_zero_spec x Hx) as [s Hs].
  rewrite is_finite_spec in Hy.
  rewrite !FloatAxioms.eqb_spec, !FloatAxioms.mul_spec, Hs.
  change (Prim2SF 0) with (S754_zero false).
  destruct (Prim2SF y) as [t|t| |t m e]; try discriminate; split; reflexivity.
Qed.

(** A quotient by zero is an infinity or NaN, and so is every product and
    every difference it enters. *)
Lemma div_zero_not_finite (x y : float) :
  (y =? 0) = true -> is_finite (x / y) = false.
Proof.
  intros Hy; destruct (eqb_zero_spec y Hy) as [s Hs].
  rewrite is_finite_spec, FloatAxioms.div_spec, Hs.
  destruct (Prim2SF x) as [t|t| |t m e]; reflexivity.
Qed.

Lemma mul_not_finite (x y : float) :
  is_finite x = false -> is_finite (x * y) = false.
Proof.
  rewrite !is_finite_spec, FloatAxioms.mul_spec.
  destruct (Prim2SF x) as [s|s| |s m e]; try discriminate; intros _;
    destruct (Prim2SF y) as [t|t| |t m' e']; reflexivity.
Qed.

Lemma sub_not_finite (x y : float) :
  is_finite y = false -> is_finite (x - y) = false.
Proof.
  rewrite !is_finite_spec, FloatAxioms.sub_spec.
  destruct (Prim2SF y) as [t|t| |t m' e']; try discriminate; intros _;
    destruct (Prim2SF x) as [s|s| |s m e]; try reflexivity;
    destruct s, t; reflexivity.
Qed.
End Float64.

(** C4, amended. For equally-shaped images, [zncc] returns normally with
    the value 0, rather than raising, whenever the standard deviation computed
    for either image is exactly zero and the one computed for the other image
    is finite. *)
Theorem zncc_zero_std_is_zero (sum : F64.image -> float) (h w : nat)
        (im1 im2 : F64.image) :
  has_shape h w im1 -> has_shape h w im2 ->
  (PrimFloat.eqb (F64.np_std sum im1) 0%float = true /\
   PrimFloat.is_finite (F64.np_std sum im2) = true) \/
  (PrimFloat.eqb (F64.np_std sum im2) 0%float = true /\
   PrimFloat.is_finite (F64.np_std sum im1) = true) ->
  F64.zncc sum im1 im2 = Ok 0%float.
Proof.
  intros H1 H2 Hz; unfold F64.zncc, F64.np_mul.
  rewrite (broadcast2_same_shape _ h w)
    by (apply map_map_shape; assumption).
  cbn [bind].
  destruct Hz as [[Hz Hf]|[Hz Hf]];
    destruct (mul_zero_finite _ _ Hz Hf) as [Hl Hr];
    [rewrite Hl|rewrite Hr]; reflexivity.
Qed.

Lemma zncc_zero_std_is_zero_witness :
  F64.zncc F64.sum_in_order [[5; 5]; [5; 5]]%float [[1; 2]; [3; 4]]%float = Ok 0%float.
Proof.
  apply (zncc_zero_std_is_zero F64.sum_in_order 2 2);
    [concrete_shape|concrete_shape|].
  left; split; vm_compute; reflexivity.
Defined.

(** C4 as stated fails for constant-valued images whose mean is rounded: for
    two images of three pixels 0.1 the computed mean is 0.1 + 2^-56, both
    computed standard deviations are 2^-56 and not zero, and [zncc] returns
    1. *)
Lemma zncc_flat_image_is_one :
  Forall (Forall (fun x => x = 0x1.999999999999ap-4%float))
         [[0x1.999999999999ap-4; 0x1.999999999999ap-4; 0x1.999999999999ap-4]%float] /\
  F64.zncc F64.sum_in_order
           [[0x1.999999999999ap-4; 0x1.999999999999ap-4; 0x1.999999999999ap-4]%float]
           [[0x1.999999999999ap-4; 0x1.999999999999ap-4; 0x1.999999999999ap-4]%float]
  = Ok 1%float.
Proof. split; [repeat constructor|vm_compute; reflexivity]. Qed.


(** C3, amended. When the standard deviation computed for the warped sample
    [g] is exactly zero, [get_error_image] raises nothing: it returns an error
    image of the shape of [f] in which every pixel is NaN or an infinity. *)
Theorem get_error_image_zero_std_not_finite (sum : F64.image -> float) (h w : nat)
        (f g : F64.image) (f_ sd_f : float) :
  has_shape h w f -> has_shape h w g ->
  PrimFloat.eqb (F64.np_std sum g) 0%float = true ->
  exists err_im,
    F64.get_error_image sum f (f_, sd_f) g = Ok err_im /\
    has_shape h w err_im /\
    Forall (Forall F64.not_finite) err_im.
Proof.
  intros Hf Hg Hstd; unfold F64.get_error_image.
  set (ratio := (sd_f / F64.np_std sum g)%float).
  assert (Hratio : PrimFloat.is_finite ratio = false)
    by now apply div_zero_not_finite.
  set (scaled := map (map (fun d => (ratio * d)%float))
                     (F64.sub_scalar g (F64.np_mean sum g))).
  assert (Hshape : has_shape h w scaled)
    by (repeat apply map_map_shape; assumption).
  assert (Hall : Forall (Forall F64.not_finite) scaled).
  { unfold scaled; rewrite Forall_map; apply Forall_forall; intros row _.
    rewrite Forall_map; apply Forall_forall; intros d _.
    now apply mul_not_finite. }
  assert (Hfs : has_shape h w (F64.sub_scalar f f_))
    by (apply map_map_shape; assumption).
  rewrite (broadcast2_same_shape _ h w _ _ Hfs Hshape).
  eexists; split; [reflexivity|]; split; [now apply zip_with2_shape|].
  revert Hall; generalize scaled as b; generalize (F64.sub_scalar f f_) as a.
  induction a as [|ra a IH]; intros [|rb b] Hall; simpl; try constructor.
  - inversion Hall as [|? ? Hrb _]; subst; clear - Hrb.
    revert rb Hrb; induction ra as [|x ra IH]; intros [|y rb] Hrb; simpl;
      constructor.
    + inversion Hrb; subst; now apply sub_not_finite.
    + inversion Hrb; subst; now apply IH.
  - inversion Hall; subst; now apply IH.
Qed.

Lemma get_error_image_zero_std_not_finite_witness :
  exists err_im,
    F64.get_error_image F64.sum_in_order [[10; 20]; [30; 40]]%float
                        (25, 11)%float [[7; 7]; [7; 7]]%float = Ok err_im /\
    has_shape 2 2 err_im /\
    Forall (Forall F64.not_finite) err_im.
Proof.
  apply (get_error_image_zero_std_not_finite F64.sum_in_order 2 2);
    [concrete_shape|concrete_shape|vm_compute; reflexivity].
Defined.

(** C3 as stated fails: a flat sample next to a reference of mean 3/2 and
    standard deviation 1/2 is answered with NaN pixels, not with an error. *)
Lemma get_error_image_silent_nan :
  PrimFloat.eqb (F64.np_std F64.sum_in_order [[3; 3]]%float) 0%float = true /\
  F64.get_error_image F64.sum_in_order [[1; 2]]%float (1.5, 0.5)%float [[3; 3]]%float
  = Ok [[nan; nan]].
Proof. split; vm_compute; reflexivity. Qed.

(** ** Loops and in-place updates *)

Lemma for_each_pure {S : Type} (body : nat -> S -> result S) (g : S -> nat -> S)
      (P : S -> Prop) (idx : list nat) (s : S) :
  P s ->
  (forall i s, In i idx -> P s -> body i s = Ok (g s i) /\ P (g s i)) ->
  for_each idx body s = Ok (fold_left g idx s) /\ P (fold_left g idx s).
Proof.
  revert s; induction idx as [|i idx IH]; intros s Hs Hbody; simpl.
  - split; [reflexivity|assumption].
  - destruct (Hbody i s (or_introl eq_refl) Hs) as [-> Hgs]; simpl.
    apply IH; [assumption|].
    intros k s' Hk; apply Hbody; now right.
Qed.

Lemma fold_left_range_ind {S : Type} (P : nat -> S -> Prop) (g : S -> nat -> S)
      (n : nat) (s : S) :
  P O s ->
  (forall k s, (k < n)%nat -> P k s -> P (Datatypes.S k) (g s k)) ->
  P n (fold_left g (range n) s).
Proof.
  unfold range; intros H0 Hstep.
  induction n as [|n IH]; [exact H0|].
  rewrite seq_S, fold_left_app; simpl.
  apply Hstep; [lia|].
  apply IH; intros k s' Hk; apply Hstep; lia.
Qed.

Lemma set_nth_length {A : Type} (i : nat) (v : A) (l : list A) :
  length (set_nth i v l) = length l.
Proof.
  revert i; induction l as [|x l IH]; intros [|i]; simpl; auto.
Qed.

Lemma nth_set_nth {A : Type} (i k : nat) (v d : A) (l : list A) :
  (i < length l)%nat ->
  nth k (set_nth i v l) d = if (k =? i)%nat then v else nth k l d.
Proof.
  revert i k; induction l as [|x l IH]; intros [|i] [|k] Hi; simpl in *;
    try lia; try reflexivity.
  apply IH; lia.
Qed.

Lemma has_shape_nth {A : Type} h w (a : list (list A)) i :
  has_shape h w a -> (i < h)%nat -> length (nth i a []) = w.
Proof.
  intros Ha Hi; apply (has_shape_row h w a); [assumption|].
  apply nth_In; destruct Ha as [Hlen _]; lia.
Qed.

Lemma setitem2_shape n m H i j v :
  has_shape n m H -> (i < n)%nat -> has_shape n m (setitem2 H i j v).
Proof.
  intros HH Hi; pose proof (has_shape_nth n m H i HH Hi) as Hrow.
  destruct HH as [Hlen Hrows]; unfold setitem2; split.
  - now rewrite set_nth_length.
  - apply Forall_forall; intros row Hin.
    destruct (In_nth _ _ [] Hin) as [k [Hk <-]].
    rewrite set_nth_length in Hk.
    rewrite nth_set_nth by lia.
    destruct (k =? i)%nat.
    + now rewrite set_nth_length.
    + rewrite Forall_forall in Hrows; apply Hrows, nth_In; assumption.
Qed.

Lemma at2_setitem2 n m H i j v i' j' :
  has_shape n m H -> (i < n)%nat -> (j < m)%nat ->
  at2 (setitem2 H i j v) i' j' =
  if ((i' =? i) && (j' =? j))%nat then v else at2 H i' j'.
Proof.
  intros HH Hi Hj; pose proof (has_shape_nth n m H i HH Hi) as Hrow.
  destruct HH as [Hlen _]; unfold at2, setitem2.
  rewrite nth_set_nth by lia.
  destruct (Nat.eqb_spec i' i) as [->|Hne]; simpl; [|reflexivity].
  now rewrite nth_set_nth by lia.
Qed.

Lemma np_zeros_shape n m : has_shape n m (np_zeros n m).
Proof.
  unfold np_zeros; split; [apply repeat_length|].
  apply Forall_forall; intros row Hin.
  apply repeat_spec in Hin; subst row; apply repeat_length.
Qed.

(** ** The Hessian *)

Section Hessian.
Variables (h w : nat) (sd_im : array3) (n_param : nat).
Hypothesis sd_shapes : Forall (has_shape h w) sd_im.
Hypothesis n_param_le : (n_param <= length sd_im)%nat.

Lemma getitem_sd i : (i < n_param)%nat -> getitem sd_im i = Ok (nth i sd_im []).
Proof.
  intros Hi; unfold getitem.
  destruct (nth_error sd_im i) as [x|] eqn:E.
  - now rewrite (nth_error_nth _ _ _ E).
  - apply nth_error_None in E; lia.
Qed.

Lemma sd_plane_shape i : (i < n_param)%nat -> has_shape h w (nth i sd_im []).
Proof.
  intros Hi; rewrite Forall_forall in sd_shapes.
  apply sd_shapes, nth_In; lia.
Qed.

(** Inside the index range the loops raise nothing and are the pure folds. *)
Lemma hessian_inner_pure i H :
  (i < n_param)%nat -> has_shape n_param n_param H ->
  for_each (range n_param)
    (fun j H =>
       if (i <=? j)%nat then
         h2 <- getitem sd_im j;;
         p <- np_mul (nth i sd_im []) h2;;
         Ok (setitem2 H i j (np_sum (ravel p)))
       else Ok (setitem2 H i j (at2 H j i))) H
  = Ok (hessian_row sd_im n_param H i)
  /\ has_shape n_param n_param (hessian_row sd_im n_param H i).
Proof.
  intros Hi HH; apply for_each_pure; [assumption|].
  intros j H' Hj HH'; apply in_seq in Hj.
  split; [|apply setitem2_shape; assumption].
  unfold hessian_cell; destruct (i <=? j)%nat; [|reflexivity].
  rewrite getitem_sd by lia; cbn [bind].
  unfold np_mul; rewrite (np_binop_same_shape Rmult h w)
    by (apply sd_plane_shape; lia).
  reflexivity.
Qed.

Lemma hessian_pure :
  hessian sd_im n_param
  = Ok (fold_left (hessian_row sd_im n_param) (range n_param) (np_zeros n_param n_param))
  /\ has_shape n_param n_param
       (fold_left (hessian_row sd_im n_param) (range n_param) (np_zeros n_param n_param)).
Proof.
  unfold hessian; apply for_each_pure; [apply np_zeros_shape|].
  intros i H Hi HH; apply in_seq in Hi.
  rewrite getitem_sd by lia; cbn [bind].
  apply hessian_inner_pure; [lia|assumption].
Qed.

Lemma hessian_row_spec i H :
  (i < n_param)%nat -> has_shape n_param n_param H ->
  (forall i' j, (i' < i)%nat -> (j < n_param)%nat -> at2 H i' j = hessian_entry sd_im i' j) ->
  let H' := hessian_row sd_im n_param H i in
  has_shape n_param n_param H' /\
  (forall i' j, i' <> i -> at2 H' i' j = at2 H i' j) /\
  (forall j, (j < n_param)%nat -> at2 H' i j = hessian_entry sd_im i j).
Proof.
  intros Hi HH Hrows; unfold hessian_row.
  apply (fold_left_range_ind
           (fun k H' =>
              has_shape n_param n_param H' /\
              (forall i' j, i' <> i -> at2 H' i' j = at2 H i' j) /\
              (forall j, (j < k)%nat -> at2 H' i j = hessian_entry sd_im i j))).
  - split; [exact HH|]; split; [reflexivity|intros j Hj; lia].
  - intros k H' Hk (HH' & Hother & Hdone); unfold hessian_cell.
    split; [apply setitem2_shape; assumption|]; split.
    + intros i' j Hne.
      rewrite (at2_setitem2 n_param n_param) by assumption.
      destruct (Nat.eqb_spec i' i); [contradiction|simpl; now apply Hother].
    + intros j Hj.
      rewrite (at2_setitem2 n_param n_param) by assumption.
      rewrite Nat.eqb_refl; simpl.
      destruct (Nat.eqb_spec j k) as [->|Hne]; [|apply Hdone; lia].
      destruct (Nat.leb_spec i k) as [Hle|Hlt].
      * unfold hessian_entry; now rewrite Nat.min_l, Nat.max_r by lia.
      * rewrite Hother by lia. rewrite Hrows by lia.
        unfold hessian_entry; now rewrite Nat.min_comm, Nat.max_comm.
Qed.

Lemma hessian_entries :
  exists H, hessian sd_im n_param = Ok H /\ has_shape n_param n_param H /\
            forall i j, (i < n_param)%nat -> (j < n_param)%nat -> at2 H i j = hessian_entry sd_im i j.
Proof.
  destruct hessian_pure as [Heq _]; eexists; split; [exact Heq|].
  apply (fold_left_range_ind
           (fun k H =>
              has_shape n_param n_param H /\
              forall i j, (i < k)%nat -> (j < n_param)%nat -> at2 H i j = hessian_entry sd_im i j)).
  - split; [apply np_zeros_shape|intros; lia].
  - intros k H Hk [HH Hrows].
    destruct (hessian_row_spec k H Hk HH Hrows) as (HH' & Hother & Hrow).
    split; [assumption|].
    intros i j Hi Hj.
    destruct (Nat.eq_dec i k) as [->|Hne]; [now apply Hrow|].
    rewrite Hother by assumption. apply Hrows; lia.
Qed.

(** C6. With as many parameters as steepest-descent images (or fewer),
    [hessian] returns an [n_param] x [n_param] matrix that is exactly
    symmetric, whose upper triangle holds the pixel sums of [sd_i * sd_j]. *)
Theorem hessian_symmetric :
  exists H, hessian sd_im n_param = Ok H /\ has_shape n_param n_param H /\
    (forall i j, (i < n_param)%nat -> (j < n_param)%nat -> at2 H i j = at2 H j i) /\
    (forall i j, (i <= j)%nat -> (j < n_param)%nat ->
                 at2 H i j = sd_product_sum sd_im i j).
Proof.
  destruct hessian_entries as (H & Heq & HH & Hent).
  exists H; split; [exact Heq|]; split; [exact HH|]; split.
  - intros i j Hi Hj; rewrite !Hent by assumption.
    unfold hessian_entry; now rewrite Nat.min_comm, Nat.max_comm.
  - intros i j Hij Hj; rewrite Hent by lia.
    unfold hessian_entry; now rewrite Nat.min_l, Nat.max_r by lia.
Qed.
End Hessian.

Lemma hessian_symmetric_witness :
  exists H, hessian [[[1; 2]]; [[3; 4]]; [[5; 6]]] 3 = Ok H /\ has_shape 3 3 H /\
    (forall i j, (i < 3)%nat -> (j < 3)%nat -> at2 H i j = at2 H j i) /\
    (forall i j, (i <= j)%nat -> (j < 3)%nat ->
                 at2 H i j = sd_product_sum [[[1; 2]]; [[3; 4]]; [[5; 6]]] i j).
Proof.
  apply (hessian_symmetric 1 2 [[[1; 2]]; [[3; 4]]; [[5; 6]]] 3).
  - repeat constructor.
  - simpl; lia.
Defined.

(** The lower triangle is a copy of the upper one: entry (1, 0) is the sum
    computed for (0, 1), with the factors in that order. *)
Example hessian_2x2 :
  hessian [[[1; 2]]; [[3; 4]]] 2
  = Ok [[1 * 1 + (2 * 2 + 0); 1 * 3 + (2 * 4 + 0)];
        [1 * 3 + (2 * 4 + 0); 3 * 3 + (4 * 4 + 0)]].
Proof. reflexivity. Qed.

(** ** The coordinate grid *)

Lemma map_nth_range {A : Type} (l : list A) (d : A) :
  map (fun j => nth j l d) (range (length l)) = l.
Proof.
  unfold range; induction l as [|x l IH]; simpl; [reflexivity|].
  f_equal. rewrite <- seq_shift, map_map. exact IH.
Qed.

Lemma tile_length (w h : nat) : length (concat (repeat (arange w) h)) = (h * w)%nat.
Proof.
  induction h as [|h IH]; simpl; [reflexivity|].
  rewrite length_app, IH; unfold arange, range.
  now rewrite length_map, length_seq.
Qed.

Lemma repeat_each_length (w h : nat) :
  length (flat_map (fun y : R => repeat y w) (arange h)) = (h * w)%nat.
Proof.
  unfold arange, range; generalize 0%nat as a.
  induction h as [|h IH]; intros a; simpl; [reflexivity|].
  now rewrite length_app, repeat_length, IH.
Qed.

Lemma seq_offset (a b n : nat) : seq (a + b) n = map (Nat.add a) (seq b n).
Proof.
  revert b; induction n as [|n IH]; intros b; simpl; [reflexivity|].
  f_equal. rewrite <- IH; f_equal; lia.
Qed.

(** [np.tile(np.arange(w), h)] holds the column index of every pixel. *)
Lemma tile_arange (w h : nat) :
  concat (repeat (arange w) h) = map (fun k => INR (k mod w)) (range (h * w)).
Proof.
  unfold arange, range; induction h as [|h IH]; [reflexivity|].
  cbn [repeat concat Nat.mul]. rewrite seq_app, map_app, IH; f_equal.
  - apply map_ext_in; intros k Hk; apply in_seq in Hk.
    now rewrite Nat.mod_small by lia.
  - replace (0 + w)%nat with (w + 0)%nat by lia.
    rewrite (seq_offset w 0), map_map.
    apply map_ext; intros k; f_equal.
    replace (w + k)%nat with (k + 1 * w)%nat by lia.
    symmetry; apply Nat.Div0.mod_add.
Qed.

Lemma repeat_as_map {A : Type} (x : A) (f : nat -> A) (a n : nat) :
  (forall k, (a <= k < a + n)%nat -> f k = x) -> repeat x n = map f (seq a n).
Proof.
  revert a; induction n as [|n IH]; intros a Hf; simpl; [reflexivity|].
  rewrite Hf by lia; f_equal.
  apply IH; intros k Hk; apply Hf; lia.
Qed.

(** [np.repeat(np.arange(h), w)] holds the row index of every pixel. *)
Lemma repeat_arange (w h : nat) :
  flat_map (fun y : R => repeat y w) (arange h)
  = map (fun k => INR (k / w)) (range (h * w)).
Proof.
  unfold arange, range; induction h as [|h IH]; [reflexivity|].
  rewrite seq_S, map_app, flat_map_app, IH.
  replace (S h * w)%nat with (h * w + w)%nat by lia.
  rewrite seq_app, map_app; f_equal.
  cbn [map flat_map Nat.add]; rewrite app_nil_r.
  apply repeat_as_map; intros k Hk; f_equal.
  replace k with ((k - h * w) + h * w)%nat by lia.
  rewrite Nat.div_add by lia.
  now rewrite Nat.div_small by lia.
Qed.

(** Pixel [(r, c)] of the canonical grid, at position [r * w + c], has
    x-coordinate [c] and y-coordinate [r]. *)
Lemma canonical_grid_pixel (h w r c : nat) :
  (r < h)%nat -> (c < w)%nat ->
  nth (r * w + c) (fst (canonical_grid h w)) 0 = INR c /\
  nth (r * w + c) (snd (canonical_grid h w)) 0 = INR r.
Proof.
  intros Hr Hc; unfold canonical_grid, range; cbn [fst snd].
  assert (Hk : (r * w + c < h * w)%nat) by nia.
  split.
  - rewrite (nth_indep _ 0 (INR (0 mod w))) by now rewrite length_map, length_seq.
    rewrite (map_nth (fun k => INR (k mod w))), seq_nth by assumption.
    cbn [Nat.add]. rewrite Nat.add_comm, Nat.Div0.mod_add.
    now rewrite Nat.mod_small.
  - rewrite (nth_indep _ 0 (INR (0 / w))) by now rewrite length_map, length_seq.
    rewrite (map_nth (fun k => INR (k / w))), seq_nth by assumption.
    cbn [Nat.add]. rewrite Nat.add_comm, Nat.div_add by lia.
    rewrite Nat.div_small by assumption. f_equal; lia.
Qed.

(** C9. For every output shape [(h, w)], [coordinate_warp] applied to the
    3x3 identity returns the canonical row-major grid: the x-array holds the
    column index and the y-array the row index of every pixel. *)
Theorem coordinate_warp_identity (h w : nat) :
  coordinate_warp identity_3x3 (h, w) = Ok (canonical_grid h w).
Proof.
  unfold coordinate_warp, canonical_grid, identity_3x3, np_dot.
  cbn [forallb length nrows Nat.eqb andb ncols hd map bind removelast].
  set (x_array := concat (repeat (arange w) h)).
  set (y_array := flat_map (fun y : R => repeat y w) (arange h)).
  assert (Hx : length x_array = (h * w)%nat) by apply tile_length.
  assert (Hy : length y_array = (h * w)%nat) by apply repeat_each_length.
  cbn [getitem nth_error bind].
  rewrite <- tile_arange, <- repeat_arange; fold x_array y_array.
  f_equal; f_equal.
  - transitivity (map (fun j => nth j x_array 0) (range (length x_array)));
      [|apply map_nth_range].
    apply map_ext; intros j; unfold dotp, column; simpl; ring.
  - transitivity (map (fun j => nth j y_array 0) (range (length y_array)));
      [|apply map_nth_range].
    rewrite Hy, <- Hx.
    apply map_ext; intros j; unfold dotp, column; simpl; ring.
Qed.

Example coordinate_warp_identity_2x3 :
  coordinate_warp identity_3x3 (2%nat, 3%nat)
  = Ok ([0; 1; 2; 0; 1; 2], [0; 0; 0; 1; 1; 1]).
Proof. cbn; repeat f_equal; ring. Qed.

(** ** The warp update *)

Lemma has_shape_3x3 (m : array2) :
  has_shape 3 3 m ->
  exists a b c d e f g h i, m = [[a; b; c]; [d; e; f]; [g; h; i]].
Proof.
  intros [Hlen Hrows].
  destruct m as [|r0 [|r1 [|r2 [|r3 m]]]]; try discriminate Hlen.
  inversion Hrows as [|? ? H0 Hrows1]; subst.
  inversion Hrows1 as [|? ? H1 Hrows2]; subst.
  inversion Hrows2 as [|? ? H2 _]; subst.
  destruct r0 as [|a [|b [|c [|? ?]]]]; try discriminate H0.
  destruct r1 as [|d [|e [|f [|? ?]]]]; try discriminate H1.
  destruct r2 as [|g [|h [|i [|? ?]]]]; try discriminate H2.
  now exists a, b, c, d, e, f, g, h, i.
Qed.

(** A matrix times the zero vector is the zero vector. *)
Lemma np_dot_vec_zero (inv_H : array2) :
  has_shape 3 3 inv_H -> np_dot_vec inv_H [0; 0; 0] = Ok [0; 0; 0].
Proof.
  intros HH; destruct (has_shape_3x3 inv_H HH)
    as (a & b & c & d & e & f & g & h & i & ->).
  unfold np_dot_vec, dotp; simpl.
  repeat f_equal; ring.
Qed.

(** The incremental matrix of a zero increment is the identity. *)
Lemma rigid_transform_matrix_zero :
  rigid_transform_matrix [0; 0; 0] = Ok identity_3x3.
Proof.
  unfold rigid_transform_matrix, identity_3x3; simpl.
  now rewrite cos_0, sin_0, Ropp_0.
Qed.

Lemma np_linalg_inv_identity : np_linalg_inv identity_3x3 = Ok identity_3x3.
Proof.
  unfold np_linalg_inv, identity_3x3.
  match goal with |- context [Req_dec_T ?d 0] => destruct (Req_dec_T d 0) as [Hd|_] end.
  - exfalso; lra.
  - repeat f_equal; field.
Qed.

Lemma np_dot_identity_r (warp : array2) :
  has_shape 3 3 warp -> np_dot warp identity_3x3 = Ok warp.
Proof.
  intros HW; destruct (has_shape_3x3 warp HW)
    as (a & b & c & d & e & f & g & h & i & ->).
  unfold np_dot, identity_3x3, dotp, column; simpl.
  repeat f_equal; ring.
Qed.

(** The adjugate form is an inverse: a matrix times what [np_linalg_inv]
    returns for it is the identity. *)
Lemma np_linalg_inv_correct (m m' : array2) :
  np_linalg_inv m = Ok m' -> np_dot m m' = Ok identity_3x3.
Proof.
  unfold np_linalg_inv.
  destruct m as [|[|a [|b [|c [|? ?]]]] [|[|d [|e [|f [|? ?]]]] [|[|g [|h [|i [|? ?]]]] [|? ?]]]];
    try discriminate.
  match goal with |- context [Req_dec_T ?d 0] => destruct (Req_dec_T d 0) as [|Hdet] end;
    [discriminate|].
  intros [= <-]; unfold np_dot, identity_3x3, dotp, column; simpl.
  repeat f_equal; field; exact Hdet.
Qed.

(** C2. For every 3x3 warp matrix and every 3x3 [inv_H] (invertible or not),
    [warp_update] with the zero vector for [b] returns the warp unchanged. *)
Theorem warp_update_zero_is_noop (inv_H warp : array2) :
  has_shape 3 3 inv_H -> has_shape 3 3 warp ->
  warp_update inv_H [0; 0; 0] warp = Ok warp.
Proof.
  intros HH HW; unfold warp_update.
  rewrite (np_dot_vec_zero inv_H HH); cbn [bind].
  rewrite rigid_transform_matrix_zero; cbn [bind].
  rewrite np_linalg_inv_identity; cbn [bind].
  now apply np_dot_identity_r.
Qed.

Lemma warp_update_zero_is_noop_witness :
  warp_update [[2; 0; 0]; [0; 4; 0]; [0; 0; 5]] [0; 0; 0]
              [[0; -1; 7]; [1; 0; 3]; [0; 0; 1]]
  = Ok [[0; -1; 7]; [1; 0; 3]; [0; 0; 1]].
Proof.
  apply warp_update_zero_is_noop; concrete_shape.
Defined.

(** ** The rigid parameters and their matrix *)

Lemma np_arcsin_sin (phi : R) : np_arcsin (sin phi) = Fin (asin (sin phi)).
Proof.
  unfold np_arcsin; pose proof (SIN_bound phi) as [Hlo Hhi].
  destruct (Rle_dec (-1) (sin phi)); [|contradiction].
  destruct (Rle_dec (sin phi) 1); [reflexivity|contradiction].
Qed.

(** Whatever the parameters, the translations are read back from the last
    column and the angle is the arcsine of the sine entry. *)
Lemma param_from_rigid_transform_matrix (vy ux phi : R) :
  (matrix <- rigid_transform_matrix [vy; ux; phi];; param_from_rt_matrix matrix)
  = Ok [Fin vy; Fin ux; Fin (asin (sin phi))].
Proof.
  unfold rigid_transform_matrix, param_from_rt_matrix; cbn.
  now rewrite np_arcsin_sin.
Qed.




(** ** The kernel guard of get_gradient *)

(** With a custom specification of two kernels of which the first has at
    least 3 rows, [get_gradient] convolves the image with these two kernels,
    whatever the second one is. *)
Lemma get_gradient_accepts (image : array2) (k0 k1 : array2) (pg : bool) :
  (3 <= length k0)%nat ->
  get_gradient image (custom [k0; k1]) pg
  = (g_x <- convolve2d image k0;; g_y <- convolve2d image k1;; Ok [g_x; g_y]).
Proof.
  intros Hlen; unfold get_gradient.
  destruct (Nat.leb_spec 3 (length k0)); [reflexivity|lia].
Qed.

(** With a custom specification [get_gradient] convolves with the two kernels
    it was given or raises: a default kernel is never put in their place. *)
Lemma get_gradient_custom (image : array2) (ks : list array2) (pg : bool) :
  get_gradient image (custom ks) pg = Raise ValueError \/
  exists k0 k1, ks = [k0; k1] /\ (3 <= length k0)%nat /\
    get_gradient image (custom ks) pg
    = (g_x <- convolve2d image k0;; g_y <- convolve2d image k1;; Ok [g_x; g_y]).
Proof.
  destruct ks as [|k0 [|k1 [|k2 ks]]]; try (left; reflexivity).
  destruct (Nat.leb_spec 3 (length k0)) as [Hlen|Hlen].
  - right; exists k0, k1; repeat split; [assumption|now apply get_gradient_accepts].
  - left; unfold get_gradient.
    destruct (Nat.leb_spec 3 (length k0)); [lia|reflexivity].
Qed.

(** C7, amended. [get_gradient] raises ValueError whenever a custom kernel
    specification does not consist of exactly two kernels (so also when it has
    fewer than two) or its first kernel, [kernel[0]], is shorter than 3.  The
    guard tests nothing else: two kernels of which the first has a length of
    at least 3 are convolved with the image whatever the second kernel is.
    So a custom specification is either rejected with a ValueError or used as
    given, and a default kernel is never put in its place. *)
Theorem get_gradient_rejects_kernel (image : array2) (ks : list array2) (pg : bool) :
  (length ks <> 2%nat \/ (length (nth 0 ks []) < 3)%nat ->
   get_gradient image (custom ks) pg = Raise ValueError) /\
  (forall k0 k1, ks = [k0; k1] -> (3 <= length k0)%nat ->
     get_gradient image (custom ks) pg
     = (g_x <- convolve2d image k0;; g_y <- convolve2d image k1;; Ok [g_x; g_y])) /\
  (get_gradient image (custom ks) pg = Raise ValueError \/
   exists k0 k1, ks = [k0; k1] /\ (3 <= length k0)%nat /\
     get_gradient image (custom ks) pg
     = (g_x <- convolve2d image k0;; g_y <- convolve2d image k1;; Ok [g_x; g_y])).
Proof.
  split; [|split; [|apply get_gradient_custom]].
  - intros Hbad.
    destruct (get_gradient_custom image ks pg) as [Hraise|(k0 & k1 & -> & Hlen & _)];
      [exact Hraise|].
    simpl in Hbad; lia.
  - intros k0 k1 -> Hlen; now apply get_gradient_accepts.
Qed.

Lemma get_gradient_rejects_kernel_witness :
  get_gradient [[1; 2; 3]; [4; 5; 6]] (custom [[[-1; 0; 1]]; [[-1]; [0]; [1]]]) true
  = Raise ValueError.
Proof.
  apply (proj1 (get_gradient_rejects_kernel _ _ _)); right; simpl; lia.
Defined.

(** C7 as stated fails for the second kernel: a specification whose first
    kernel has 3 rows is accepted although its second kernel has only one row
    (and although every row of the first kernel has a single tap). *)
Lemma get_gradient_accepts_short_second_kernel :
  (exists k, In k [[[-1]; [0]; [1]]; [[1]]] /\ (length k < 3)%nat) /\
  get_gradient [[1; 2]; [3; 4]] (custom [[[-1]; [0]; [1]]; [[1]]]) true
  = Ok [convolve2d_same [[1; 2]; [3; 4]] [[-1]; [0]; [1]];
        convolve2d_same [[1; 2]; [3; 4]] [[1]]].
Proof.
  split; [|reflexivity].
  exists [[1]]; split; [right; left; reflexivity|simpl; lia].
Qed.

(** The centred window of a convolution with the difference kernel
    [[1, 0, -1]]: the full result [1, 2, 2, -2, -3] without its two ends. *)
Example convolve2d_same_row :
  convolve2d_same [[1; 2; 3]] [[1; 0; -1]] = [[2; 2; -2]].
Proof. cbn; repeat f_equal; ring. Qed.

(** ** Shape mismatches *)

Section Broadcasting.
Context {A B C : Type}.

(** An axis on which the lengths differ and neither is 1 cannot be broadcast. *)
Lemma broadcast_incompatible (f : A -> B -> result C) (a : list A) (b : list B) :
  length a <> length b -> length a <> 1%nat -> length b <> 1%nat ->
  broadcast f a b = Raise ValueError.
Proof.
  intros Hab Ha Hb; unfold broadcast.
  destruct (Nat.eqb_spec (length a) (length b)) as [Heq|_]; [contradiction|].
  destruct a as [|x [|x' a]]; destruct b as [|y [|y' b]]; simpl in *;
    try reflexivity; contradiction.
Qed.

(** A failure of the inner axes surfaces through the outer one. *)
Lemma broadcast_all_fail (f : A -> B -> result C) (a : list A) (b : list B) :
  a <> [] -> b <> [] ->
  (forall x y, In x a -> In y b -> f x y = Raise ValueError) ->
  broadcast f a b = Raise ValueError.
Proof.
  intros Ha Hb Hf; unfold broadcast.
  destruct a as [|x a]; [contradiction|]; destruct b as [|y b]; [contradiction|].
  assert (Hxy : f x y = Raise ValueError) by (apply Hf; now left).
  destruct (length (x :: a) =? length (y :: b))%nat; [simpl; now rewrite Hxy|].
  destruct a as [|x' a]; [simpl; now rewrite Hxy|].
  destruct b as [|y' b]; [simpl; now rewrite Hxy|reflexivity].
Qed.

End Broadcasting.

Lemma has_shape_nonempty {A : Type} h w (a : list (list A)) :
  (0 < h)%nat -> has_shape h w a -> a <> [].
Proof. intros Hh [Hlen _] ->; simpl in Hlen; lia. Qed.

(** Two non-empty arrays whose shapes cannot be broadcast do not multiply. *)
Lemma np_mul_incompatible h w h' w' (a b : array2) :
  (0 < h)%nat -> (0 < h')%nat ->
  has_shape h' w' a -> has_shape h w b ->
  ~ broadcastable h' h \/ ~ broadcastable w' w ->
  np_mul a b = Raise ValueError.
Proof.
  intros Hh Hh' Ha Hb Hbad; unfold np_mul, np_binop, broadcastable in *.
  destruct Hbad as [Hbad|Hbad].
  - destruct Ha as [Ha _], Hb as [Hb _].
    apply broadcast_incompatible; lia.
  - apply broadcast_all_fail;
      [exact (has_shape_nonempty h' w' a Hh' Ha)
      |exact (has_shape_nonempty h w b Hh Hb)|].
    intros x y Hx Hy.
    pose proof (has_shape_row _ _ _ _ Ha Hx); pose proof (has_shape_row _ _ _ _ Hb Hy).
    apply broadcast_incompatible; lia.
Qed.


Section InterpolationShape.
Variable spline : Type.
Variable RectBivariateSpline : array2 -> nat -> result spline.
Variable ev : spline -> R -> R -> R.

End InterpolationShape.

Lemma np_ones_shape n m : has_shape n m (np_ones n m).
Proof.
  unfold np_ones; split; [apply repeat_length|].
  apply Forall_forall; intros row Hin.
  apply repeat_spec in Hin; subst row; apply repeat_length.
Qed.

(** The Jacobian of an [h] x [w] frame: two stacks of three [h] x [w] planes. *)
Lemma jacobian_rigid_shape (h w : nat) : jac_shape 3 h w (jacobian_rigid h w).
Proof.
  assert (Hx : has_shape h w (repeat (arange w) h)).
  { split; [apply repeat_length|].
    apply Forall_forall; intros row Hin; apply repeat_spec in Hin; subst row.
    unfold arange, range; now rewrite length_map, length_seq. }
  assert (Hy : has_shape h w (map (fun i => repeat (INR i) w) (range h))).
  { split; [unfold range; now rewrite length_map, length_seq|].
    rewrite Forall_map; apply Forall_forall; intros i _; apply repeat_length. }
  unfold jacobian_rigid; split; [reflexivity|].
  repeat (apply Forall_cons; [split; [reflexivity|]|]); try apply Forall_nil;
    repeat apply Forall_cons; try apply Forall_nil;
    try apply np_zeros_shape; try apply np_ones_shape; try assumption.
  now apply map_map_shape.
Qed.




(** ** The maximum of the correlation surface *)

(** The scan returns the running maximum's index when nothing exceeds it, and
    otherwise the first index at which the final maximum occurs. *)
Lemma argmax_scan_spec (l : vec) (best : R) (besti i : nat) :
  (besti < i)%nat ->
  let k := argmax_scan best besti i l in
  (k = besti /\ forall j, (j < length l)%nat -> nth j l 0 <= best) \/
  ((i <= k)%nat /\ (k - i < length l)%nat /\ best < nth (k - i) l 0 /\
   (forall j, (j < length l)%nat -> nth j l 0 <= nth (k - i) l 0) /\
   (forall j, (j < k - i)%nat -> nth j l 0 < nth (k - i) l 0)).
Proof.
  revert best besti i; induction l as [|x t IH]; intros best besti i Hlt;
    cbn [argmax_scan length].
  - left; split; [reflexivity|intros j Hj; lia].
  - destruct (Rlt_dec best x) as [Hbx|Hbx].
    + right.
      destruct (IH x i (S i) (Nat.lt_succ_diag_r i))
        as [[Hk Hall]|(Hik & Hklen & Hv & Hall & Hfirst)].
      * rewrite Hk, Nat.sub_diag; cbn [nth].
        split; [lia|]; split; [lia|]; split; [exact Hbx|]; split.
        -- intros [|j] Hj; [lra|apply Hall; lia].
        -- intros j Hj; lia.
      * set (k := argmax_scan x i (S i) t) in *.
        replace (k - i)%nat with (S (k - S i)) by lia; cbn [nth].
        split; [lia|]; split; [lia|]; split; [lra|]; split.
        -- intros [|j] Hj; [lra|apply Hall; lia].
        -- intros [|j] Hj; [lra|apply Hfirst; lia].
    + destruct (IH best besti (S i) (Nat.lt_lt_succ_r _ _ Hlt))
        as [[Hk Hall]|(Hik & Hklen & Hv & Hall & Hfirst)].
      * left; split; [assumption|].
        intros [|j] Hj; [cbn [nth]; lra|apply Hall; lia].
      * right. set (k := argmax_scan best besti (S i) t) in *.
        replace (k - i)%nat with (S (k - S i)) by lia; cbn [nth].
        split; [lia|]; split; [lia|]; split; [lra|]; split.
        -- intros [|j] Hj; [lra|apply Hall; lia].
        -- intros [|j] Hj; [lra|apply Hfirst; lia].
Qed.

(** [argmax] of a non-empty array is the first index of its largest entry. *)
Lemma np_argmax_first_max (l : vec) :
  l <> [] ->
  exists k, np_argmax l = Ok k /\ (k < length l)%nat /\
    (forall j, (j < length l)%nat -> nth j l 0 <= nth k l 0) /\
    (forall j, (j < k)%nat -> nth j l 0 < nth k l 0).
Proof.
  destruct l as [|x t]; [contradiction|intros _].
  exists (argmax_scan x 0 1 t); split; [reflexivity|].
  destruct (argmax_scan_spec t x 0 1 Nat.lt_0_1)
    as [[Hk Hall]|(Hik & Hklen & Hv & Hall & Hfirst)].
  - rewrite Hk; cbn [nth length]; split; [lia|]; split.
    + intros [|j] Hj; [lra|apply Hall; lia].
    + intros j Hj; lia.
  - set (k := argmax_scan x 0 1 t) in *.
    replace k with (S (k - 1)) by lia; cbn [nth length].
    split; [lia|]; split.
    + intros [|j] Hj; [lra|apply Hall; lia].
    + intros [|j] Hj; [lra|apply Hfirst; lia].
Qed.

(** Row-major flattening: entry [(r, c)] of a rectangular array sits at
    position [r * nc + c]. *)
Lemma nth_ravel nr nc (a : array2) (r c : nat) :
  has_shape nr nc a -> (r < nr)%nat -> (c < nc)%nat ->
  nth (r * nc + c) (ravel a) 0 = at2 a r c.
Proof.
  intros [Hlen Hrows]; subst nr; revert r.
  unfold ravel, at2; induction Hrows as [|row a Hrow _ IH]; intros r Hr Hc;
    simpl in Hr; [lia|].
  destruct r as [|r]; simpl.
  - now rewrite app_nth1 by lia.
  - rewrite app_nth2 by lia.
    replace (nc + r * nc + c - length row)%nat with (r * nc + c)%nat by lia.
    apply IH; lia.
Qed.

Lemma ncols_shape h w (a : array2) :
  (0 < h)%nat -> has_shape h w a -> nrows a = h /\ ncols a = w.
Proof.
  intros Hh [Hlen Hrows]; split; [exact Hlen|].
  unfold ncols; destruct a as [|row a]; [simpl in Hlen; lia|].
  now inversion Hrows.
Qed.

Lemma flip2_shape h w (a : array2) : has_shape h w a -> has_shape h w (flip2 a).
Proof.
  intros [Hlen Hrows]; unfold flip2; split.
  - now rewrite length_rev, length_map.
  - apply Forall_rev; rewrite Forall_map.
    eapply Forall_impl; [|exact Hrows].
    intros row Hrow; simpl; now rewrite length_rev.
Qed.

Lemma convolve_valid_shape (im k : array2) :
  has_shape (nrows im - nrows k + 1) (ncols im - ncols k + 1) (convolve_valid im k).
Proof.
  unfold convolve_valid, range; split.
  - now rewrite length_map, length_seq.
  - rewrite Forall_map; apply Forall_forall; intros i _.
    now rewrite length_map, length_seq.
Qed.

Lemma forallb_filter {A : Type} (f g : A -> bool) (l : list A) :
  forallb f l = true -> forallb f (filter g l) = true.
Proof.
  induction l as [|x l IH]; simpl; [reflexivity|].
  intros Hf; apply andb_true_iff in Hf as [Hx Hl].
  destruct (g x); simpl; [rewrite Hx|]; auto.
Qed.

(** Where the second input fits into the first, the valid-mode window is the
    part of the full convolution on which the second lies inside the first. *)
Lemma valid_window_fits (in1 in2 : array2) :
  (nrows in2 <= nrows in1)%nat -> (ncols in2 <= ncols in1)%nat ->
  valid_window in1 in2 = convolve_valid in1 in2.
Proof.
  intros Hr Hc; unfold valid_window, convolve_valid, valid_len.
  rewrite !Nat.max_l, !Nat.min_r by assumption.
  apply map_ext; intros i; apply map_ext; intros j.
  unfold valid_at, conv_full_at.
  rewrite !Nat.min_r by assumption.
  rewrite !np_sum_flat_map.
  apply np_sum_map_ext_in; intros p Hp; apply in_seq in Hp.
  apply np_sum_map_ext_in; intros q Hq; apply in_seq in Hq.
  unfold valid_idx1, valid_idx2.
  destruct (Nat.leb_spec (nrows in2) (nrows in1)); [|lia].
  destruct (Nat.leb_spec (ncols in2) (ncols in1)); [|lia].
  destruct (Nat.leb_spec p (i + (nrows in2 - 1))); [|lia].
  destruct (Nat.leb_spec q (j + (ncols in2 - 1))); [|lia].
  cbn [andb]; ring.
Qed.

Lemma fftconvolve_valid_fits H W h w (in1 in2 : array2) :
  has_shape H W in1 -> has_shape h w in2 ->
  (0 < h <= H)%nat -> (0 < w <= W)%nat ->
  fftconvolve_valid in1 in2 = Ok (convolve_valid in1 in2) /\
  has_shape (H - h + 1) (W - w + 1) (convolve_valid in1 in2).
Proof.
  intros H1 H2 Hh Hw.
  destruct (ncols_shape H W in1 ltac:(lia) H1) as [Hr1 Hc1].
  destruct (ncols_shape h w in2 ltac:(lia) H2) as [Hr2 Hc2].
  split.
  - unfold fftconvolve_valid, size.
    rewrite valid_window_fits by lia.
    rewrite Hr1, Hc1, Hr2, Hc2.
    destruct (Nat.eqb_spec (H * W) 0) as [E|_]; [nia|].
    destruct (Nat.eqb_spec (h * w) 0) as [E|_]; [nia|]; cbn [orb].
    match goal with
    | |- context [forallb ?f (filter ?g ?l) || _] =>
        rewrite (forallb_filter f g l)
    end; [reflexivity|].
    cbn [forallb].
    destruct (Nat.leb_spec h H); [|lia].
    destruct (Nat.leb_spec w W); [|lia].
    reflexivity.
  - rewrite <- Hr1, <- Hc1, <- Hr2, <- Hc2; apply convolve_valid_shape.
Qed.

(** C10. For a target at least as large as the (non-empty) ROI image in both
    dimensions, and whatever values the FFT convolution puts into the
    valid-mode surface it returns for images of these shapes,
    [get_initial_guess] returns that surface and a position inside it at
    which the surface is maximal, and every position that precedes it in
    row-major order holds a strictly smaller value: among several maxima of
    the returned surface the first one is returned. *)
Theorem get_initial_guess_first_maximum
        (fftconvolve : array2 -> array2 -> result array2)
        (H W h w : nat) (target roi_image : array2) :
  (forall in1 in2, has_shape H W in1 -> has_shape h w in2 ->
     exists corr, fftconvolve in1 in2 = Ok corr /\
                  has_shape (H - h + 1) (W - w + 1) corr) ->
  has_shape H W target -> has_shape h w roi_image ->
  (0 < h <= H)%nat -> (0 < w <= W)%nat ->
  exists (r c : nat) (corr : array2),
    fftconvolve (sub_scalar target (np_mean target))
                (sub_scalar (flip2 roi_image) (np_mean roi_image)) = Ok corr /\
    get_initial_guess fftconvolve target roi_image = Ok ([INR r; INR c], corr) /\
    has_shape (H - h + 1) (W - w + 1) corr /\
    (r < H - h + 1)%nat /\ (c < W - w + 1)%nat /\
    (forall r' c', (r' < H - h + 1)%nat -> (c' < W - w + 1)%nat ->
                   at2 corr r' c' <= at2 corr r c) /\
    (forall r' c', (r' < H - h + 1)%nat -> (c' < W - w + 1)%nat ->
                   (r' < r)%nat \/ (r' = r /\ (c' < c)%nat) ->
                   at2 corr r' c' < at2 corr r c).
Proof.
  intros Hvalid Ht Hr Hh Hw.
  set (nr := (H - h + 1)%nat); set (nc := (W - w + 1)%nat).
  destruct (Hvalid (sub_scalar target (np_mean target))
                   (sub_scalar (flip2 roi_image) (np_mean roi_image)))
    as (corr & Hfft & Hshape);
    [now apply sub_scalar_shape|now apply sub_scalar_shape, flip2_shape|].
  fold nr nc in Hshape.
  assert (Hlen : length (ravel corr) = (nr * nc)%nat)
    by now apply ravel_shape_length.
  assert (Hne : ravel corr <> [])
    by (intros E; rewrite E in Hlen; simpl in Hlen; subst nr nc; nia).
  destruct (np_argmax_first_max (ravel corr) Hne) as (k & Hk & Hklt & Hmax & Hfirst).
  rewrite Hlen in Hklt, Hmax.
  destruct (ncols_shape nr nc corr ltac:(subst nr; lia) Hshape) as [Hnr Hnc].
  assert (Hncpos : (0 < nc)%nat) by (subst nc; lia).
  assert (Hr_lt : (k / nc < nr)%nat)
    by (apply Nat.Div0.div_lt_upper_bound; lia).
  assert (Hc_lt : (k mod nc < nc)%nat) by (apply Nat.mod_upper_bound; lia).
  assert (Hk_eq : k = (k / nc * nc + k mod nc)%nat)
    by (rewrite (Nat.div_mod_eq k nc) at 1; lia).
  assert (Hat : nth k (ravel corr) 0 = at2 corr (k / nc) (k mod nc))
    by (rewrite Hk_eq at 1; now apply (nth_ravel nr nc)).
  exists (k / nc)%nat, (k mod nc)%nat, corr.
  split; [exact Hfft|split; [|split; [exact Hshape|split; [exact Hr_lt|split;
          [exact Hc_lt|split]]]]].
  - unfold get_initial_guess; rewrite Hfft; cbn [bind].
    rewrite Hk; cbn [bind]. unfold shape, np_unravel_index; rewrite Hnr, Hnc.
    destruct (Nat.ltb_spec k (nr * nc)); [reflexivity|lia].
  - intros r' c' Hr' Hc'.
    rewrite <- Hat, <- (nth_ravel nr nc corr r' c') by assumption.
    apply Hmax; nia.
  - intros r' c' Hr' Hc' Hbefore.
    rewrite <- Hat, <- (nth_ravel nr nc corr r' c') by assumption.
    apply Hfirst; nia.
Qed.

Lemma get_initial_guess_first_maximum_witness :
  exists (r c : nat) (corr : array2),
    fftconvolve_valid
      (sub_scalar [[0; 1; 0; 1]; [0; 0; 0; 0]] (np_mean [[0; 1; 0; 1]; [0; 0; 0; 0]]))
      (sub_scalar (flip2 [[0; 1]]) (np_mean [[0; 1]])) = Ok corr /\
    get_initial_guess fftconvolve_valid [[0; 1; 0; 1]; [0; 0; 0; 0]] [[0; 1]]
    = Ok ([INR r; INR c], corr) /\
    has_shape (2 - 1 + 1) (4 - 2 + 1) corr /\
    (r < 2 - 1 + 1)%nat /\ (c < 4 - 2 + 1)%nat /\
    (forall r' c', (r' < 2 - 1 + 1)%nat -> (c' < 4 - 2 + 1)%nat ->
                   at2 corr r' c' <= at2 corr r c) /\
    (forall r' c', (r' < 2 - 1 + 1)%nat -> (c' < 4 - 2 + 1)%nat ->
                   (r' < r)%nat \/ (r' = r /\ (c' < c)%nat) ->
                   at2 corr r' c' < at2 corr r c).
Proof.
  apply (get_initial_guess_first_maximum fftconvolve_valid 2 4 1 2);
    try lia; try concrete_shape.
  intros in1 in2 H1 H2.
  destruct (fftconvolve_valid_fits 2 4 1 2 in1 in2 H1 H2 ltac:(lia) ltac:(lia))
    as [Hfft Hshape].
  eexists; split; [exact Hfft|exact Hshape].
Defined.

(** ** Further properties of zncc *)

Lemma ravel_zip_with (f : R -> R -> R) h w (a b : array2) :
  has_shape h w a -> has_shape h w b ->
  ravel (zip_with (zip_with f) a b) = zip_with f (ravel a) (ravel b).
Proof.
  intros [Ha Hra] [Hb Hrb]; subst h; unfold ravel.
  revert b Hb Hrb; induction Hra as [|ra a Hlen _ IH]; intros [|rb b] Hb Hrb;
    simpl in *; try discriminate; [reflexivity|].
  inversion Hrb as [|? ? Hlenb Hrb']; subst.
  rewrite IH by (assumption || lia).
  clear - Hlenb. revert rb Hlenb.
  induction ra as [|x ra IH]; intros [|y rb] Hl; simpl in *; try discriminate;
    [reflexivity|].
  f_equal; apply IH; lia.
Qed.

Lemma zip_with_comm {A C : Type} (f : A -> A -> C) (u v : list A) :
  (forall x y, f x y = f y x) -> zip_with f u v = zip_with f v u.
Proof.
  intros Hf; revert v; induction u as [|x u IH]; intros [|y v]; simpl;
    try reflexivity.
  now rewrite Hf, IH.
Qed.

Lemma dotp_diag (u : vec) : dotp u u = np_sum (map (fun d => d * d) u).
Proof. unfold dotp; now rewrite zip_with_diag. Qed.

Lemma dotp_diag_nonneg (u : vec) : 0 <= dotp u u.
Proof. rewrite dotp_diag; apply np_sum_squares_nonneg. Qed.


(** On equally-shaped images [zncc] is the mean product of the deviations
    over the product of the standard deviations, or 0 when that vanishes. *)
Lemma zncc_same_shape h w (im1 im2 : array2) :
  has_shape h w im1 -> has_shape h w im2 ->
  zncc im1 im2 =
  Ok (if Req_dec_T (np_std im1 * np_std im2) 0 then 0
      else dotp (deviations im1) (deviations im2) / INR (h * w)
           / (np_std im1 * np_std im2)).
Proof.
  intros H1 H2; unfold zncc, np_mul.
  rewrite (np_binop_same_shape Rmult h w)
    by (apply sub_scalar_shape; assumption).
  cbn [bind].
  destruct (Req_dec_T (np_std im1 * np_std im2) 0); [reflexivity|].
  do 2 f_equal; unfold np_mean at 1.
  rewrite (ravel_zip_with Rmult h w) by (apply sub_scalar_shape; assumption).
  unfold sub_scalar; rewrite !ravel_map.
  fold (deviations im1) (deviations im2) (dotp (deviations im1) (deviations im2)).
  f_equal; f_equal.
  rewrite <- (ravel_shape_length h w im1 H1).
  unfold deviations.
  rewrite zip_with_length; rewrite !length_map; [reflexivity|].
  now rewrite (ravel_shape_length h w im1 H1), (ravel_shape_length h w im2 H2).
Qed.

(** X1. On equally-shaped images [zncc] never raises, whatever the pixel
    values are and however they are summed: it returns a number. *)
Theorem zncc_never_raises (sum : F64.image -> float) (h w : nat)
        (im1 im2 : F64.image) :
  has_shape h w im1 -> has_shape h w im2 ->
  exists z, F64.zncc sum im1 im2 = Ok z.
Proof.
  intros H1 H2; unfold F64.zncc, F64.np_mul.
  rewrite (broadcast2_same_shape _ h w)
    by (apply map_map_shape; assumption).
  cbn [bind].
  match goal with
  | |- context [if ?b then _ else _] => destruct b
  end; eexists; reflexivity.
Qed.

Lemma zncc_never_raises_witness :
  exists z, F64.zncc F64.sum_in_order [[1; 2]; [3; 5]]%float [[4; 0]; [1; 1]]%float
            = Ok z.
Proof.
  apply (zncc_never_raises F64.sum_in_order 2 2); concrete_shape.
Defined.

(** X2. On equally-shaped images [zncc] is symmetric in its arguments. *)
Theorem zncc_symmetric (h w : nat) (im1 im2 : array2) :
  has_shape h w im1 -> has_shape h w im2 ->
  zncc im1 im2 = zncc im2 im1.
Proof.
  intros H1 H2.
  rewrite (zncc_same_shape h w im1 im2 H1 H2), (zncc_same_shape h w im2 im1 H2 H1).
  unfold dotp.
  rewrite (zip_with_comm Rmult (deviations im1) (deviations im2) Rmult_comm).
  now rewrite (Rmult_comm (np_std im1) (np_std im2)).
Qed.

Lemma zncc_symmetric_witness :
  zncc [[1; 2]; [3; 5]] [[4; 0]; [1; 1]] = zncc [[4; 0]; [1; 1]] [[1; 2]; [3; 5]].
Proof.
  apply (zncc_symmetric 2 2); concrete_shape.
Defined.

(** ** Changes of contrast and brightness *)












(** ** The error image of a sample with contrast *)

Section ZipWith.
Context {A A' B B' C : Type}.

Lemma zip_with_maps (f : A' -> B' -> C) (g : A -> A') (k : B -> B')
      (a : list A) (b : list B) :
  zip_with f (map g a) (map k b) = zip_with (fun x y => f (g x) (k y)) a b.
Proof.
  revert b; induction a as [|x a IH]; intros [|y b]; simpl; try reflexivity.
  now rewrite IH.
Qed.

End ZipWith.








(** ** The right-hand-side vector *)

Lemma for_each_app {S : Type} (l1 l2 : list nat) (body : nat -> S -> result S) (s : S) :
  for_each (l1 ++ l2) body s = (s' <- for_each l1 body s;; for_each l2 body s').
Proof.
  revert s; induction l1 as [|i l1 IH]; intros s; simpl; [reflexivity|].
  destruct (body i s) as [s'|e]; simpl; [apply IH|reflexivity].
Qed.

(** A loop whose body first fails at index [k] raises what the body raises. *)
Lemma for_each_raises {S : Type} (body : nat -> S -> result S) (g : S -> nat -> S)
      (P : S -> Prop) (e : exn) (k n : nat) (s : S) :
  (k < n)%nat -> P s ->
  (forall i s, (i < k)%nat -> P s -> body i s = Ok (g s i) /\ P (g s i)) ->
  (forall s, P s -> body k s = Raise e) ->
  for_each (range n) body s = Raise e.
Proof.
  intros Hk Hs Hpure Hfail; unfold range.
  replace n with (k + Datatypes.S (n - Datatypes.S k))%nat by lia.
  rewrite seq_app, for_each_app.
  destruct (for_each_pure body g P (seq 0 k) s Hs) as [-> HP].
  { intros i s' Hi; apply in_seq in Hi; apply Hpure; lia. }
  cbn [bind Nat.add seq for_each].
  now rewrite (Hfail _ HP).
Qed.

Section ErrorVector.
Variables (h w : nat) (sd_im : array3) (error_im : array2) (n_param : nat).
Hypothesis sd_shapes : Forall (has_shape h w) sd_im.
Hypothesis error_shape : has_shape h w error_im.

Lemma get_sd_error_vector_step i b :
  (i < length sd_im)%nat ->
  (h1 <- getitem sd_im i;; p <- np_mul h1 error_im;;
   Ok (set_nth i (np_sum (ravel p)) b))
  = Ok (set_nth i (sd_error_sum sd_im error_im i) b).
Proof.
  intros Hi; unfold getitem.
  destruct (nth_error sd_im i) as [x|] eqn:E;
    [|apply nth_error_None in E; lia].
  unfold sd_error_sum; rewrite (nth_error_nth _ _ _ E); cbn [bind].
  unfold np_mul; rewrite (np_binop_same_shape Rmult h w);
    [reflexivity| |assumption].
  rewrite Forall_forall in sd_shapes.
  apply sd_shapes; eapply nth_error_In; eassumption.
Qed.

Lemma get_sd_error_vector_entries :
  (n_param <= length sd_im)%nat ->
  exists b, get_sd_error_vector sd_im error_im n_param = Ok b /\
            length b = n_param /\
            forall i, (i < n_param)%nat -> nth i b 0 = sd_error_sum sd_im error_im i.
Proof.
  intros Hle.
  destruct (for_each_pure
              (fun i b => h1 <- getitem sd_im i;; p <- np_mul h1 error_im;;
                          Ok (set_nth i (np_sum (ravel p)) b))
              (fun b i => set_nth i (sd_error_sum sd_im error_im i) b)
              (fun b => length b = n_param)
              (range n_param) (repeat 0 n_param)) as [Heq Hlen].
  { apply repeat_length. }
  { intros i b Hi Hb; apply in_seq in Hi; split.
    - apply get_sd_error_vector_step; lia.
    - now rewrite set_nth_length. }
  eexists; split; [exact Heq|]; split; [exact Hlen|].
  apply (fold_left_range_ind
           (fun k b => length b = n_param /\
                       forall i, (i < k)%nat -> nth i b 0 = sd_error_sum sd_im error_im i)).
  - split; [apply repeat_length|intros; lia].
  - intros k b Hk [Hb Hdone]; split; [now rewrite set_nth_length|].
    intros i Hi; rewrite nth_set_nth by lia.
    destruct (Nat.eqb_spec i k) as [->|Hne]; [reflexivity|apply Hdone; lia].
Qed.

(** X6. With no more parameters than steepest-descent images, all of the
    shape of the error image, [get_sd_error_vector] returns the vector whose
    entry [i] is the pixel sum of [sd_im[i] * error_im]. *)
Theorem get_sd_error_vector_sums :
  (n_param <= length sd_im)%nat ->
  get_sd_error_vector sd_im error_im n_param
  = Ok (map (sd_error_sum sd_im error_im) (range n_param)).
Proof.
  intros Hle.
  destruct (get_sd_error_vector_entries Hle) as (b & -> & Hlen & Hent).
  f_equal; apply (nth_ext _ _ 0 0).
  - unfold range; now rewrite length_map, length_seq.
  - intros i Hi; rewrite Hlen in Hi; rewrite (Hent i Hi).
    rewrite (nth_indep _ 0 (sd_error_sum sd_im error_im 0))
      by (unfold range; now rewrite length_map, length_seq).
    unfold range; now rewrite map_nth, seq_nth.
Qed.

(** X7. With more parameters than steepest-descent images,
    [get_sd_error_vector] raises IndexError. *)
Theorem get_sd_error_vector_index_error :
  (length sd_im < n_param)%nat ->
  get_sd_error_vector sd_im error_im n_param = Raise IndexError.
Proof.
  intros Hlt; unfold get_sd_error_vector.
  apply (for_each_raises _
           (fun b i => set_nth i (sd_error_sum sd_im error_im i) b)
           (fun _ => True) IndexError (length sd_im)); [assumption|exact I| |].
  - intros i b Hi _; split; [now apply get_sd_error_vector_step|exact I].
  - intros b _; unfold getitem.
    destruct (nth_error sd_im (length sd_im)) as [x|] eqn:E; [|reflexivity].
    assert (Hsome : nth_error sd_im (length sd_im) <> None) by congruence.
    apply nth_error_Some in Hsome; lia.
Qed.
End ErrorVector.

Lemma get_sd_error_vector_sums_witness :
  get_sd_error_vector [[[1; 2]]; [[3; 4]]] [[5; 6]] 2
  = Ok (map (sd_error_sum [[[1; 2]]; [[3; 4]]] [[5; 6]]) (range 2)).
Proof.
  apply (get_sd_error_vector_sums 1 2); [repeat constructor|concrete_shape|simpl; lia].
Defined.

Lemma get_sd_error_vector_index_error_witness :
  get_sd_error_vector [[[1; 2]]; [[3; 4]]] [[5; 6]] 3 = Raise IndexError.
Proof.
  apply (get_sd_error_vector_index_error 1 2);
    [repeat constructor|concrete_shape|simpl; lia].
Defined.

(** ** Further properties of the Hessian *)

Section HessianMore.
Variables (h w : nat) (sd_im : array3) (n_param : nat).
Hypothesis sd_shapes : Forall (has_shape h w) sd_im.

Lemma sd_product_sum_dotp i j :
  (i < length sd_im)%nat -> (j < length sd_im)%nat ->
  sd_product_sum sd_im i j = dotp (ravel (nth i sd_im [])) (ravel (nth j sd_im [])).
Proof.
  intros Hi Hj; unfold sd_product_sum, dotp.
  rewrite Forall_forall in sd_shapes.
  now rewrite (ravel_zip_with Rmult h w) by (apply sd_shapes, nth_In; assumption).
Qed.

Lemma sd_product_sum_comm i j :
  (i < length sd_im)%nat -> (j < length sd_im)%nat ->
  sd_product_sum sd_im i j = sd_product_sum sd_im j i.
Proof.
  intros Hi Hj; rewrite !sd_product_sum_dotp by assumption.
  unfold dotp; f_equal; apply zip_with_comm, Rmult_comm.
Qed.

(** X8. With more parameters than steepest-descent images (all of one
    shape), [hessian] raises IndexError. *)
Theorem hessian_index_error :
  (length sd_im < n_param)%nat ->
  hessian sd_im n_param = Raise IndexError.
Proof.
  intros Hlt; unfold hessian.
  apply (for_each_raises _ (fun H _ => H) (fun _ => True) IndexError 0);
    [lia|exact I|intros; lia|].
  intros H _; unfold getitem at 1.
  destruct (nth_error sd_im 0) as [h1|] eqn:E0; [cbn [bind]|reflexivity].
  assert (Hh1 : has_shape h w h1).
  { rewrite Forall_forall in sd_shapes; eapply sd_shapes, nth_error_In, E0. }
  apply (for_each_raises _
           (fun H j => setitem2 H 0 j (np_sum (ravel (zip_with (zip_with Rmult) h1
                                                              (nth j sd_im [])))))
           (fun _ => True) IndexError (length sd_im)); [assumption|exact I| |].
  - intros j H' Hj _; split; [|exact I]; cbn [Nat.leb].
    unfold getitem.
    destruct (nth_error sd_im j) as [h2|] eqn:E;
      [|apply nth_error_None in E; lia].
    rewrite (nth_error_nth _ _ _ E); cbn [bind].
    unfold np_mul; rewrite (np_binop_same_shape Rmult h w); [reflexivity|assumption|].
    rewrite Forall_forall in sd_shapes; eapply sd_shapes, nth_error_In, E.
  - intros H' _; cbn [Nat.leb]; unfold getitem.
    destruct (nth_error sd_im (length sd_im)) as [x|] eqn:E; [|reflexivity].
    assert (Hsome : nth_error sd_im (length sd_im) <> None) by congruence.
    apply nth_error_Some in Hsome; lia.
Qed.

Hypothesis n_param_le : (n_param <= length sd_im)%nat.

(** X9. The right-hand side computed for an error image that is the
    steepest-descent image [j] itself is column [j] of the Hessian. *)
Theorem get_sd_error_vector_hessian_column (j : nat) :
  (j < n_param)%nat ->
  exists H, hessian sd_im n_param = Ok H /\
            get_sd_error_vector sd_im (nth j sd_im []) n_param = Ok (column j H).
Proof.
  intros Hj.
  destruct (hessian_entries h w sd_im n_param sd_shapes n_param_le)
    as (H & HH & Hshape & Hent).
  assert (Hplane : has_shape h w (nth j sd_im [])).
  { rewrite Forall_forall in sd_shapes; apply sd_shapes, nth_In; lia. }
  destruct (get_sd_error_vector_entries h w sd_im (nth j sd_im []) n_param
              sd_shapes Hplane n_param_le) as (b & Hb & Hlen & Hbent).
  exists H; split; [exact HH|]; rewrite Hb; f_equal.
  destruct Hshape as [HlenH _].
  apply (nth_ext _ _ 0 0); [unfold column; now rewrite length_map, HlenH|].
  intros i Hi; rewrite Hlen in Hi; rewrite (Hbent i Hi).
  unfold column.
  rewrite (nth_indep _ 0 (nth j [] 0)) by (rewrite length_map; lia).
  rewrite (map_nth (fun row => nth j row 0)).
  fold (at2 H i j); rewrite (Hent i j Hi Hj).
  unfold hessian_entry, sd_error_sum; fold (sd_product_sum sd_im i j).
  destruct (Nat.le_ge_cases i j) as [Hij|Hji].
  - now rewrite Nat.min_l, Nat.max_r.
  - rewrite Nat.min_r, Nat.max_l by assumption.
    apply sd_product_sum_comm; lia.
Qed.

(** X10. The diagonal of the Hessian is non-negative: [H[i,i]] is a sum of
    squares. *)
Theorem hessian_diagonal_nonneg :
  exists H, hessian sd_im n_param = Ok H /\
    forall i, (i < n_param)%nat -> 0 <= at2 H i i.
Proof.
  destruct (hessian_entries h w sd_im n_param sd_shapes n_param_le)
    as (H & HH & Hshape & Hent).
  exists H; split; [exact HH|]; intros i Hi.
  rewrite Hent by assumption; unfold hessian_entry.
  rewrite Nat.min_id, Nat.max_id.
  rewrite sd_product_sum_dotp by lia.
  apply dotp_diag_nonneg.
Qed.
End HessianMore.

Lemma hessian_index_error_witness :
  hessian [[[1; 2]]; [[3; 4]]] 3 = Raise IndexError.
Proof.
  apply (hessian_index_error 1 2); [repeat constructor|simpl; lia].
Defined.

Lemma get_sd_error_vector_hessian_column_witness :
  exists H, hessian [[[1; 2]]; [[3; 4]]; [[5; 6]]] 3 = Ok H /\
            get_sd_error_vector [[[1; 2]]; [[3; 4]]; [[5; 6]]]
                                (nth 1 [[[1; 2]]; [[3; 4]]; [[5; 6]]] []) 3
            = Ok (column 1 H).
Proof.
  apply (get_sd_error_vector_hessian_column 1 2);
    [repeat constructor|simpl; lia|lia].
Defined.

Lemma hessian_diagonal_nonneg_witness :
  exists H, hessian [[[1; 2]]; [[3; 4]]; [[5; 6]]] 3 = Ok H /\
    forall i, (i < 3)%nat -> 0 <= at2 H i i.
Proof.
  apply (hessian_diagonal_nonneg 1 2); [repeat constructor|simpl; lia].
Defined.

(** ** Rigid matrices: inverses, products, updates *)

(** Equality of matrices written out in full, entry by entry. *)
Ltac entrywise :=
  repeat match goal with
         | |- Ok _ = Ok _ => apply f_equal
         | |- _ :: _ = _ :: _ => apply f_equal2
         | |- @nil _ = @nil _ => reflexivity
         end.

Lemma unit_circle (x : R) : cos x * cos x + sin x * sin x = 1.
Proof. pose proof (sin2_cos2 x) as H; unfold Rsqr in H; lra. Qed.

(** X11. A rigid transform matrix is never singular: its inverse is the rigid
    matrix of the opposite angle, with the translation turned back. *)
Theorem rigid_transform_matrix_inverse (vy ux phi : R) :
  (m <- rigid_transform_matrix [vy; ux; phi];; np_linalg_inv m)
  = rigid_transform_matrix [sin phi * ux - cos phi * vy;
                            - (cos phi * ux + sin phi * vy);
                            - phi].
Proof.
  pose proof (unit_circle phi) as Hc.
  unfold rigid_transform_matrix; cbn; rewrite cos_neg, sin_neg.
  match goal with
  | |- context [Req_dec_T ?d 0] =>
      assert (Hd : d = 1) by nra; rewrite Hd
  end.
  destruct (Req_dec_T 1 0) as [|_]; [lra|].
  entrywise; unfold Rdiv; rewrite ?Rinv_1; nra.
Qed.

(** X12. The product of two rigid transform matrices is the rigid matrix of
    the sum of the angles, with the second translation turned by the first
    angle and added to the first translation. *)
Theorem rigid_transform_matrix_product (vy1 ux1 phi1 vy2 ux2 phi2 : R) :
  (m1 <- rigid_transform_matrix [vy1; ux1; phi1];;
   m2 <- rigid_transform_matrix [vy2; ux2; phi2];;
   np_dot m1 m2)
  = rigid_transform_matrix [vy1 + (sin phi1 * ux2 + cos phi1 * vy2);
                            ux1 + (cos phi1 * ux2 - sin phi1 * vy2);
                            phi1 + phi2].
Proof.
  unfold rigid_transform_matrix; cbn; rewrite cos_plus, sin_plus.
  unfold dotp, column; cbn.
  entrywise; ring.
Qed.

(** X13. [warp_update] keeps a rigid warp rigid: with the increment
    [dp = (dvy, dux, dphi)], the warp of parameters [(vy, ux, phi)] becomes the
    rigid matrix of angle [phi - dphi], and the increment's translation,
    turned by that angle, is taken off the warp's translation. *)
Theorem warp_update_rigid (inv_H : array2) (b : vec) (vy ux phi dvy dux dphi : R) :
  np_dot_vec inv_H b = Ok [dvy; dux; dphi] ->
  (warp <- rigid_transform_matrix [vy; ux; phi];; warp_update inv_H b warp)
  = rigid_transform_matrix
      [vy - (sin (phi - dphi) * dux + cos (phi - dphi) * dvy);
       ux - (cos (phi - dphi) * dux - sin (phi - dphi) * dvy);
       phi - dphi].
Proof.
  intros Hdp; pose proof (unit_circle dphi) as Hc.
  unfold warp_update; rewrite Hdp.
  unfold rigid_transform_matrix; cbn; rewrite cos_minus, sin_minus.
  match goal with
  | |- context [Req_dec_T ?d 0] =>
      assert (Hd : d = 1) by nra; rewrite Hd
  end.
  destruct (Req_dec_T 1 0) as [|_]; [lra|].
  cbn; unfold dotp, column; cbn.
  entrywise; unfold Rdiv; rewrite ?Rinv_1;
    replace (cos dphi * cos dphi - - sin dphi * sin dphi) with 1 by lra; ring.
Qed.

Lemma warp_update_rigid_witness :
  (warp <- rigid_transform_matrix [3; 2; 1];;
   warp_update identity_3x3 [1 / 2; 1 / 4; 1 / 8] warp)
  = rigid_transform_matrix
      [3 - (sin (1 - 1 / 8) * (1 / 4) + cos (1 - 1 / 8) * (1 / 2));
       2 - (cos (1 - 1 / 8) * (1 / 4) - sin (1 - 1 / 8) * (1 / 2));
       1 - 1 / 8].
Proof.
  apply warp_update_rigid.
  unfold np_dot_vec, identity_3x3, dotp; cbn.
  entrywise; lra.
Defined.

(** X14. Beyond a quarter turn the angle is not recovered: for an angle in
    [pi/2, 3 pi/2] the round trip through the matrix returns [pi - phi]. *)
Theorem param_from_rt_matrix_reflects_angle (vy ux phi : R) :
  PI / 2 <= phi <= 3 * (PI / 2) ->
  (matrix <- rigid_transform_matrix [vy; ux; phi];; param_from_rt_matrix matrix)
  = Ok [Fin vy; Fin ux; Fin (PI - phi)].
Proof.
  intros Hphi; rewrite param_from_rigid_transform_matrix.
  rewrite <- (sin_PI_x phi), asin_sin by lra.
  reflexivity.
Qed.

Lemma param_from_rt_matrix_reflects_angle_witness :
  (matrix <- rigid_transform_matrix [3; 2; 3 * (PI / 4)];; param_from_rt_matrix matrix)
  = Ok [Fin 3; Fin 2; Fin (PI - 3 * (PI / 4))].
Proof.
  apply param_from_rt_matrix_reflects_angle.
  pose proof PI_RGT_0; lra.
Defined.

(** ** Warped coordinates and the resampled image *)

Lemma nth_map_range (f : nat -> R) (n k : nat) :
  (k < n)%nat -> nth k (map f (range n)) 0 = f k.
Proof.
  intros Hk; unfold range.
  rewrite (nth_indep _ 0 (f 0%nat)) by now rewrite length_map, length_seq.
  now rewrite map_nth, seq_nth.
Qed.

Lemma nth_repeat_lt (x : R) (n k : nat) : (k < n)%nat -> nth k (repeat x n) 0 = x.
Proof.
  intros Hk; rewrite (nth_indep _ 0 x) by now rewrite repeat_length.
  apply nth_repeat.
Qed.

(** X15. For a 3x3 matrix and any output shape, [coordinate_warp] returns
    the canonical grid mapped through the first two rows of the matrix: pixel
    (row r, column c) is sent to x = m00 c + m01 r + m02 and
    y = m10 c + m11 r + m12; the third row plays no part. *)
Theorem coordinate_warp_affine (matrix : array2) (h w : nat) :
  has_shape 3 3 matrix ->
  coordinate_warp matrix (h, w) = Ok (affine_grid matrix h w).
Proof.
  intros Hm; destruct (has_shape_3x3 matrix Hm)
    as (a & b & c & d & e & f & g & h' & i & ->).
  unfold coordinate_warp, np_dot, affine_grid, at2.
  cbn [forallb length nrows Nat.eqb andb ncols hd map bind removelast nth].
  rewrite tile_arange, repeat_arange.
  cbn [getitem nth_error bind].
  assert (Hlen : length (map (fun k => INR (k mod w)) (range (h * w))) = (h * w)%nat)
    by (unfold range; now rewrite length_map, length_seq).
  rewrite Hlen.
  f_equal; f_equal; apply map_ext_in; intros k Hk; apply in_seq in Hk;
    unfold dotp, column; cbn [map zip_with np_sum fold_right];
    rewrite !nth_map_range, nth_repeat_lt by (unfold range in Hk; lia); ring.
Qed.

Lemma coordinate_warp_affine_witness :
  coordinate_warp [[2; 0; 5]; [0; 3; 7]; [0; 0; 1]] (2%nat, 2%nat)
  = Ok (affine_grid [[2; 0; 5]; [0; 3; 7]; [0; 0; 1]] 2 2).
Proof.
  apply coordinate_warp_affine; concrete_shape.
Defined.

Example coordinate_warp_scaled_2x2 :
  coordinate_warp [[2; 0; 5]; [0; 3; 7]; [0; 0; 1]] (2%nat, 2%nat)
  = Ok ([5; 7; 5; 7], [7; 7; 10; 10]).
Proof. cbn; repeat f_equal; ring. Qed.

(** X16. [coordinate_warp] raises ValueError when some row of the matrix
    does not have 3 entries, and IndexError when the matrix has rows of 3
    entries but fewer than 3 of them. *)
Theorem coordinate_warp_bad_matrix (matrix : array2) (h w : nat) :
  (Exists (fun row => length row <> 3%nat) matrix ->
   coordinate_warp matrix (h, w) = Raise ValueError) /\
  (Forall (fun row => length row = 3%nat) matrix -> (length matrix < 3)%nat ->
   coordinate_warp matrix (h, w) = Raise IndexError).
Proof.
  split.
  - intros Hbad; unfold coordinate_warp, np_dot; cbn [nrows length].
    replace (forallb (fun row => (length row =? 3)%nat) matrix) with false;
      [reflexivity|].
    symmetry; apply not_true_is_false; intros Hall.
    rewrite forallb_forall in Hall.
    apply Exists_exists in Hbad; destruct Hbad as (row & Hin & Hlen).
    apply Hall, Nat.eqb_eq in Hin; contradiction.
  - intros Hrows Hlen; unfold coordinate_warp, np_dot; cbn [nrows length].
    replace (forallb (fun row => (length row =? 3)%nat) matrix) with true.
    + destruct matrix as [|r0 [|r1 [|r2 m]]]; try reflexivity.
      simpl in Hlen; lia.
    + symmetry; apply forallb_forall; intros row Hin.
      rewrite Forall_forall in Hrows; apply Nat.eqb_eq; now apply Hrows.
Qed.

Lemma coordinate_warp_bad_matrix_witness :
  coordinate_warp [[1; 0]; [0; 1]] (2%nat, 2%nat) = Raise ValueError /\
  coordinate_warp [[1; 0; 0]; [0; 1; 0]] (2%nat, 2%nat) = Raise IndexError.
Proof.
  split.
  - apply (proj1 (coordinate_warp_bad_matrix [[1; 0]; [0; 1]] 2 2)).
    left; simpl; lia.
  - apply (proj2 (coordinate_warp_bad_matrix [[1; 0; 0]; [0; 1; 0]] 2 2));
      [repeat constructor|simpl; lia].
Defined.

Lemma chunks_shape (w h : nat) (l : vec) :
  length l = (h * w)%nat -> has_shape h w (chunks w h l).
Proof.
  revert l; induction h as [|h IH]; intros l Hl; [split; constructor|].
  destruct (IH (skipn w l)) as [Hlen Hrows]; [rewrite length_skipn; lia|].
  split; cbn [chunks length]; [now rewrite Hlen|].
  constructor; [rewrite length_firstn; lia|exact Hrows].
Qed.

(** Flattening a reshaped array gives the array back. *)
Lemma ravel_chunks (w h : nat) (l : vec) :
  length l = (h * w)%nat -> ravel (chunks w h l) = l.
Proof.
  unfold ravel; revert l; induction h as [|h IH]; intros l Hl.
  - destruct l; [reflexivity|discriminate].
  - cbn [chunks concat]; rewrite IH by (rewrite length_skipn; lia).
    apply firstn_skipn.
Qed.

Lemma nth_zip_with (f : R -> R -> R) (u v : vec) (k : nat) :
  (k < length u)%nat -> (k < length v)%nat ->
  nth k (zip_with f u v) 0 = f (nth k u 0) (nth k v 0).
Proof.
  revert v k; induction u as [|x u IH]; intros [|y v] [|k] Hu Hv; simpl in *;
    try lia; [reflexivity|apply IH; lia].
Qed.

Section Resampling.
Variable spline : Type.
Variable RectBivariateSpline : array2 -> nat -> result spline.
Variable ev : spline -> R -> R -> R.

Lemma interpolate_warp_values (xi yi : vec) (target : array2) (h w : nat)
      (spl : option spline) (order : nat) (s : spline) :
  length xi = (h * w)%nat -> length yi = (h * w)%nat ->
  spl = Some s \/ (spl = None /\ RectBivariateSpline target order = Ok s) ->
  interpolate_warp spline RectBivariateSpline ev xi yi target (h, w) spl order
  = Ok (chunks w h (zip_with (ev s) yi xi)).
Proof.
  intros Hx Hy Hs; unfold interpolate_warp.
  assert (Hspl : match spl with
                 | Some s' => Ok s'
                 | None => RectBivariateSpline target order
                 end = Ok s) by (destruct Hs as [->|[-> ->]]; reflexivity).
  rewrite Hspl; cbn [bind].
  rewrite broadcast_same by congruence.
  rewrite (zipM_ok _ (ev s))
    by (apply Forall2_same_length; [congruence|reflexivity]).
  cbn [bind reshape].
  rewrite zip_with_length, Hy, Nat.eqb_refl by congruence.
  reflexivity.
Qed.

(** X17. With coordinate arrays of [h * w] entries each and a spline at hand
    (supplied, or fitted without failure), [interpolate_warp] returns an
    [h] x [w] image whose pixel (r, c) is the spline evaluated at the
    coordinates number [r * w + c], with the y-coordinate first. *)
Theorem interpolate_warp_pixels (xi yi : vec) (target : array2) (h w : nat)
        (spl : option spline) (order : nat) (s : spline) :
  length xi = (h * w)%nat -> length yi = (h * w)%nat ->
  spl = Some s \/ (spl = None /\ RectBivariateSpline target order = Ok s) ->
  exists warped_ROI,
    interpolate_warp spline RectBivariateSpline ev xi yi target (h, w) spl order
    = Ok warped_ROI /\
    has_shape h w warped_ROI /\
    forall r c, (r < h)%nat -> (c < w)%nat ->
                at2 warped_ROI r c
                = ev s (nth (r * w + c) yi 0) (nth (r * w + c) xi 0).
Proof.
  intros Hx Hy Hs.
  assert (Hlen : length (zip_with (ev s) yi xi) = (h * w)%nat)
    by (rewrite zip_with_length; congruence).
  eexists; split;
    [exact (interpolate_warp_values xi yi target h w spl order s Hx Hy Hs)|].
  split; [now apply chunks_shape|].
  intros r c Hr Hc.
  rewrite <- (nth_ravel h w) by (try apply chunks_shape; assumption).
  rewrite ravel_chunks by assumption.
  apply nth_zip_with; nia.
Qed.

(** X18. The sampling step composes: for a 3x3 warp matrix and a spline at
    hand, warping the grid of an [h] x [w] frame and interpolating at the
    result never raises, and pixel (r, c) of the warped ROI is the spline
    evaluated at y = m10 c + m11 r + m12, x = m00 c + m01 r + m02. *)
Theorem coordinate_warp_then_interpolate (matrix target : array2) (h w : nat)
        (spl : option spline) (order : nat) (s : spline) :
  has_shape 3 3 matrix ->
  spl = Some s \/ (spl = None /\ RectBivariateSpline target order = Ok s) ->
  exists warped_ROI,
    ('(xi, yi) <- coordinate_warp matrix (h, w);;
     interpolate_warp spline RectBivariateSpline ev xi yi target (h, w) spl order)
    = Ok warped_ROI /\
    has_shape h w warped_ROI /\
    forall r c, (r < h)%nat -> (c < w)%nat ->
                at2 warped_ROI r c
                = ev s (at2 matrix 1 0 * INR c + at2 matrix 1 1 * INR r + at2 matrix 1 2)
                       (at2 matrix 0 0 * INR c + at2 matrix 0 1 * INR r + at2 matrix 0 2).
Proof.
  intros Hm Hs.
  destruct (has_shape_3x3 matrix Hm) as (a & b & c0 & d & e & f & g & h' & i & ->).
  unfold coordinate_warp, np_dot.
  cbn [forallb length nrows Nat.eqb andb ncols hd map bind removelast].
  rewrite tile_arange, repeat_arange.
  cbn [getitem nth_error bind].
  assert (Hlen : length (map (fun k => INR (k mod w)) (range (h * w))) = (h * w)%nat)
    by (unfold range; now rewrite length_map, length_seq).
  rewrite Hlen.
  set (xi := map _ (range (h * w))).
  set (yi := map _ (range (h * w))).
  assert (Hxi : length xi = (h * w)%nat)
    by (unfold xi, range; now rewrite length_map, length_seq).
  assert (Hyi : length yi = (h * w)%nat)
    by (unfold yi, range; now rewrite length_map, length_seq).
  assert (Hzl : length (zip_with (ev s) yi xi) = (h * w)%nat)
    by (rewrite zip_with_length; congruence).
  eexists; split;
    [exact (interpolate_warp_values xi yi target h w spl order s Hxi Hyi Hs)|].
  split; [now apply chunks_shape|].
  intros r c Hr Hc.
  assert (Hk : (r * w + c < h * w)%nat) by nia.
  rewrite <- (nth_ravel h w) by (try apply chunks_shape; assumption).
  rewrite ravel_chunks, nth_zip_with by lia.
  unfold xi, yi; rewrite !nth_map_range by assumption.
  unfold dotp, column, at2; cbn [map zip_with np_sum fold_right nth].
  rewrite !nth_map_range, nth_repeat_lt by lia.
  replace ((r * w + c) mod w)%nat with c
    by (rewrite Nat.add_comm, Nat.Div0.mod_add; now rewrite Nat.mod_small).
  replace ((r * w + c) / w)%nat with r
    by (rewrite Nat.add_comm, Nat.div_add by lia; rewrite Nat.div_small by lia; lia).
  f_equal; ring.
Qed.
End Resampling.

Lemma interpolate_warp_pixels_witness :
  exists warped_ROI,
    interpolate_warp unit (fun _ _ => Ok tt) (fun _ y x => 10 * y + x)
                     [0; 1; 0; 1] [0; 0; 1; 1] [[1; 2]; [3; 4]] (2%nat, 2%nat)
                     (Some tt) 3
    = Ok warped_ROI /\
    has_shape 2 2 warped_ROI /\
    forall r c, (r < 2)%nat -> (c < 2)%nat ->
                at2 warped_ROI r c
                = 10 * nth (r * 2 + c) [0; 0; 1; 1] 0 + nth (r * 2 + c) [0; 1; 0; 1] 0.
Proof.
  apply (interpolate_warp_pixels unit (fun _ _ => Ok tt) (fun _ y x => 10 * y + x)
           [0; 1; 0; 1] [0; 0; 1; 1] [[1; 2]; [3; 4]] 2 2 (Some tt) 3 tt);
    [reflexivity|reflexivity|left; reflexivity].
Defined.

Lemma coordinate_warp_then_interpolate_witness :
  exists warped_ROI,
    ('(xi, yi) <- coordinate_warp [[1; 0; 5]; [0; 1; 7]; [0; 0; 1]] (2%nat, 3%nat);;
     interpolate_warp unit (fun _ _ => Ok tt) (fun _ y x => 10 * y + x)
                      xi yi [[1; 2]; [3; 4]] (2%nat, 3%nat) None 3)
    = Ok warped_ROI /\
    has_shape 2 3 warped_ROI /\
    forall r c, (r < 2)%nat -> (c < 3)%nat ->
                at2 warped_ROI r c
                = 10 * (at2 [[1; 0; 5]; [0; 1; 7]; [0; 0; 1]] 1 0 * INR c
                        + at2 [[1; 0; 5]; [0; 1; 7]; [0; 0; 1]] 1 1 * INR r
                        + at2 [[1; 0; 5]; [0; 1; 7]; [0; 0; 1]] 1 2)
                  + (at2 [[1; 0; 5]; [0; 1; 7]; [0; 0; 1]] 0 0 * INR c
                     + at2 [[1; 0; 5]; [0; 1; 7]; [0; 0; 1]] 0 1 * INR r
                     + at2 [[1; 0; 5]; [0; 1; 7]; [0; 0; 1]] 0 2).
Proof.
  apply (coordinate_warp_then_interpolate
           unit (fun _ _ => Ok tt) (fun _ y x => 10 * y + x)
           [[1; 0; 5]; [0; 1; 7]; [0; 0; 1]] [[1; 2]; [3; 4]] 2 3 None 3 tt);
    [concrete_shape|right; split; reflexivity].
Defined.

(** ** The correlation surface *)

Lemma np_sum_cons (x : R) (l : vec) : np_sum (x :: l) = x + np_sum l.
Proof. reflexivity. Qed.

(** A sum over [0 .. n-1] may be taken from the top down. *)
Lemma np_sum_reverse (f : nat -> R) (n : nat) :
  np_sum (map f (range n)) = np_sum (map (fun a => f (n - 1 - a)%nat) (range n)).
Proof.
  unfold range; revert f; induction n as [|n IH]; intros f; [reflexivity|].
  transitivity (np_sum (map f (seq 0 n)) + f n).
  - rewrite seq_S, map_app, np_sum_app; simpl; ring.
  - rewrite (IH f).
    change (seq 0 (S n)) with (0%nat :: seq 1 n).
    rewrite <- seq_shift, map_cons, np_sum_cons, map_map.
    replace (S n - 1 - 0)%nat with n by lia.
    rewrite (map_ext (fun a => f (S n - 1 - S a)%nat) (fun a => f (n - 1 - a)%nat))
      by (intros a; f_equal; lia).
    ring.
Qed.

Lemma at2_tabulate (F : nat -> nat -> R) (nr nc i j : nat) :
  (i < nr)%nat -> (j < nc)%nat ->
  at2 (map (fun i => map (fun j => F i j) (range nc)) (range nr)) i j = F i j.
Proof.
  intros Hi Hj; unfold at2, range.
  rewrite (nth_indep _ [] (map (fun j => F 0%nat j) (seq 0 nc)))
    by now rewrite length_map, length_seq.
  rewrite (map_nth (fun i => map (fun j => F i j) (seq 0 nc))), seq_nth by assumption.
  now apply nth_map_range.
Qed.

Lemma at2_map (f : R -> R) h w (a : array2) (i j : nat) :
  has_shape h w a -> (i < h)%nat -> (j < w)%nat ->
  at2 (map (map f) a) i j = f (at2 a i j).
Proof.
  intros Ha Hi Hj; unfold at2.
  change (@nil R) with (map f []) at 1; rewrite map_nth.
  rewrite (nth_indep _ 0 (f 0)) by (rewrite length_map, (has_shape_nth h w a i Ha Hi); lia).
  apply map_nth.
Qed.

Lemma at2_flip2 h w (a : array2) (p q : nat) :
  has_shape h w a -> (p < h)%nat -> (q < w)%nat ->
  at2 (flip2 a) p q = at2 a (h - 1 - p) (w - 1 - q).
Proof.
  intros Ha Hp Hq; pose proof Ha as [Hlen _]; unfold at2, flip2.
  rewrite rev_nth by (rewrite length_map; lia).
  rewrite length_map, Hlen.
  change (@nil R) with (rev (@nil R)) at 1; rewrite map_nth.
  replace (h - S p)%nat with (h - 1 - p)%nat by lia.
  assert (Hrow : length (nth (h - 1 - p) a []) = w)
    by (apply (has_shape_nth h w); [assumption|lia]).
  rewrite rev_nth by lia.
  rewrite Hrow; f_equal; lia.
Qed.

(** Convolving with the ROI image reversed along both axes evaluates the
    cross-correlation: entry (i, j) of the valid-mode surface is the sum over
    the ROI of the products of the centred ROI and the centred target window
    at offset (i, j). *)
Lemma convolve_valid_flip2 H W h w (target roi_image : array2) (i j : nat) :
  has_shape H W target -> has_shape h w roi_image ->
  (0 < h <= H)%nat -> (0 < w <= W)%nat ->
  (i < H - h + 1)%nat -> (j < W - w + 1)%nat ->
  at2 (convolve_valid (sub_scalar target (np_mean target))
                      (sub_scalar (flip2 roi_image) (np_mean roi_image))) i j
  = cross_correlation_at target roi_image i j.
Proof.
  intros Ht Hr Hh Hw Hi Hj.
  pose proof (flip2_shape h w roi_image Hr) as Hflip.
  destruct (ncols_shape H W _ ltac:(lia) (sub_scalar_shape H W target (np_mean target) Ht))
    as [Hr1 Hc1].
  destruct (ncols_shape h w _ ltac:(lia)
              (sub_scalar_shape h w (flip2 roi_image) (np_mean roi_image) Hflip))
    as [Hr2 Hc2].
  destruct (ncols_shape h w roi_image ltac:(lia) Hr) as [Hr3 Hc3].
  unfold convolve_valid; rewrite Hr1, Hc1, Hr2, Hc2.
  rewrite at2_tabulate by assumption.
  unfold conv_full_at, cross_correlation_at; rewrite Hr2, Hc2, Hr3, Hc3.
  rewrite !np_sum_flat_map.
  rewrite (np_sum_reverse
             (fun a => np_sum (map (fun b => (at2 roi_image a b - np_mean roi_image)
                                             * (at2 target (i + a) (j + b) - np_mean target))
                                   (range w)))).
  apply np_sum_map_ext_in; intros p Hp; apply in_seq in Hp.
  rewrite (np_sum_reverse
             (fun b => (at2 roi_image (h - 1 - p) b - np_mean roi_image)
                       * (at2 target (i + (h - 1 - p)) (j + b) - np_mean target))).
  apply np_sum_map_ext_in; intros q Hq; apply in_seq in Hq.
  destruct (Nat.leb_spec p (i + (h - 1))); [|lia].
  destruct (Nat.leb_spec q (j + (w - 1))); [|lia]; cbn [andb].
  unfold sub_scalar.
  rewrite (at2_map _ h w) by (assumption || lia).
  rewrite (at2_map _ H W) by (assumption || lia).
  rewrite (at2_flip2 h w) by (assumption || lia).
  replace (i + (h - 1) - p)%nat with (i + (h - 1 - p))%nat by lia.
  replace (j + (w - 1) - q)%nat with (j + (w - 1 - q))%nat by lia.
  reflexivity.
Qed.

(** What [get_initial_guess] returns when the ROI image fits into the target:
    the unravelled [argmax] of the valid-mode surface, and the surface. *)
Lemma get_initial_guess_returns H W h w (target roi_image : array2) :
  has_shape H W target -> has_shape h w roi_image ->
  (0 < h <= H)%nat -> (0 < w <= W)%nat ->
  exists k,
    (k < (H - h + 1) * (W - w + 1))%nat /\
    get_initial_guess fftconvolve_valid target roi_image
    = Ok ([INR (k / (W - w + 1)); INR (k mod (W - w + 1))],
          convolve_valid (sub_scalar target (np_mean target))
                         (sub_scalar (flip2 roi_image) (np_mean roi_image))).
Proof.
  intros Ht Hr Hh Hw.
  set (corr := convolve_valid (sub_scalar target (np_mean target))
                              (sub_scalar (flip2 roi_image) (np_mean roi_image))).
  destruct (fftconvolve_valid_fits H W h w
              (sub_scalar target (np_mean target))
              (sub_scalar (flip2 roi_image) (np_mean roi_image)))
    as [Hfft Hshape];
    [now apply sub_scalar_shape|now apply sub_scalar_shape, flip2_shape|lia|lia|].
  fold corr in Hfft, Hshape.
  assert (Hlen : length (ravel corr) = ((H - h + 1) * (W - w + 1))%nat)
    by now apply ravel_shape_length.
  assert (Hne : ravel corr <> [])
    by (intros E; rewrite E in Hlen; simpl in Hlen; nia).
  destruct (np_argmax_first_max (ravel corr) Hne) as (k & Hk & Hklt & _).
  rewrite Hlen in Hklt.
  destruct (ncols_shape (H - h + 1) (W - w + 1) corr ltac:(lia) Hshape) as [Hnr Hnc].
  exists k; split; [exact Hklt|].
  unfold get_initial_guess; fold corr; rewrite Hfft; cbn [bind].
  rewrite Hk; cbn [bind]. unfold shape, np_unravel_index; rewrite Hnr, Hnc.
  destruct (Nat.ltb_spec k ((H - h + 1) * (W - w + 1))); [reflexivity|lia].
Qed.

(** X19. With the FFT convolution at its exact values, the surface returned
    by [get_initial_guess] is the zero-mean cross-correlation: its entry
    (i, j) is the sum over the ROI of
    (roi - mean roi) * (target window at offset (i, j) - mean target). *)
Theorem get_initial_guess_cross_correlation (H W h w : nat) (target roi_image : array2) :
  has_shape H W target -> has_shape h w roi_image ->
  (0 < h <= H)%nat -> (0 < w <= W)%nat ->
  exists guess corr_fft,
    get_initial_guess fftconvolve_valid target roi_image = Ok (guess, corr_fft) /\
    forall i j, (i < H - h + 1)%nat -> (j < W - w + 1)%nat ->
                at2 corr_fft i j = cross_correlation_at target roi_image i j.
Proof.
  intros Ht Hr Hh Hw.
  destruct (get_initial_guess_returns H W h w target roi_image Ht Hr Hh Hw)
    as (k & _ & Heq).
  do 2 eexists; split; [exact Heq|].
  intros i j Hi Hj; now apply (convolve_valid_flip2 H W h w).
Qed.

(** X20. When the ROI image has the shape of the target, the surface has the
    single entry (0, 0) and the guess is (0, 0). *)
Theorem get_initial_guess_same_shape (h w : nat) (target roi_image : array2) :
  has_shape h w target -> has_shape h w roi_image ->
  (0 < h)%nat -> (0 < w)%nat ->
  get_initial_guess fftconvolve_valid target roi_image
  = Ok ([0; 0], [[cross_correlation_at target roi_image 0 0]]).
Proof.
  intros Ht Hr Hh Hw.
  destruct (get_initial_guess_returns h w h w target roi_image Ht Hr ltac:(lia) ltac:(lia))
    as (k & Hk & Heq).
  rewrite Heq.
  replace (h - h + 1)%nat with 1%nat in * by lia.
  replace (w - w + 1)%nat with 1%nat in * by lia.
  assert (k = 0%nat) by lia; subst k; cbn [Nat.div Nat.modulo Nat.divmod fst snd INR].
  f_equal; f_equal.
  rewrite <- (convolve_valid_flip2 h w h w target roi_image 0 0) by (assumption || lia).
  pose proof (flip2_shape h w roi_image Hr) as Hflip.
  destruct (ncols_shape h w _ Hh (sub_scalar_shape h w target (np_mean target) Ht))
    as [Hr1 Hc1].
  destruct (ncols_shape h w _ Hh
              (sub_scalar_shape h w (flip2 roi_image) (np_mean roi_image) Hflip))
    as [Hr2 Hc2].
  unfold convolve_valid at 1; rewrite Hr1, Hc1, Hr2, Hc2.
  replace (h - h + 1)%nat with 1%nat by lia.
  replace (w - w + 1)%nat with 1%nat by lia.
  cbn [range seq map].
  unfold at2, convolve_valid; rewrite Hr1, Hc1, Hr2, Hc2.
  replace (h - h + 1)%nat with 1%nat by lia.
  replace (w - w + 1)%nat with 1%nat by lia.
  reflexivity.
Qed.

Lemma get_initial_guess_cross_correlation_witness :
  exists guess corr_fft,
    get_initial_guess fftconvolve_valid [[0; 1; 0; 1]; [0; 0; 0; 0]] [[0; 1]] = Ok (guess, corr_fft) /\
    forall i j, (i < 2 - 1 + 1)%nat -> (j < 4 - 2 + 1)%nat ->
                at2 corr_fft i j
                = cross_correlation_at [[0; 1; 0; 1]; [0; 0; 0; 0]] [[0; 1]] i j.
Proof.
  apply (get_initial_guess_cross_correlation 2 4 1 2); try lia; concrete_shape.
Defined.

Lemma get_initial_guess_same_shape_witness :
  get_initial_guess fftconvolve_valid [[1; 2]; [3; 4]] [[4; 3]; [2; 1]]
  = Ok ([0; 0], [[cross_correlation_at [[1; 2]; [3; 4]] [[4; 3]; [2; 1]] 0 0]]).
Proof.
  apply (get_initial_guess_same_shape 2 2); try lia; concrete_shape.
Defined.

(** X21. When neither image contains the other (the ROI image is longer than
    the target along one axis and shorter along the other) and no axis of
    either has length 1, the valid-mode convolution is refused and
    [get_initial_guess] raises ValueError. *)
Theorem get_initial_guess_crossed_shapes (H W h w : nat) (target roi_image : array2) :
  has_shape H W target -> has_shape h w roi_image ->
  (2 <= H)%nat -> (2 <= W)%nat -> (2 <= h)%nat -> (2 <= w)%nat ->
  (H < h /\ w < W)%nat \/ (h < H /\ W < w)%nat ->
  get_initial_guess fftconvolve_valid target roi_image = Raise ValueError.
Proof.
  intros Ht Hr HH HW Hh Hw Hcross.
  pose proof (flip2_shape h w roi_image Hr) as Hflip.
  destruct (ncols_shape H W _ ltac:(lia) (sub_scalar_shape H W target (np_mean target) Ht))
    as [Hr1 Hc1].
  destruct (ncols_shape h w _ ltac:(lia)
              (sub_scalar_shape h w (flip2 roi_image) (np_mean roi_image) Hflip))
    as [Hr2 Hc2].
  unfold get_initial_guess, fftconvolve_valid, size; rewrite Hr1, Hc1, Hr2, Hc2.
  destruct (Nat.eqb_spec (H * W) 0) as [E|_]; [nia|].
  destruct (Nat.eqb_spec (h * w) 0) as [E|_]; [nia|]; cbn [orb].
  cbn [filter].
  destruct (Nat.eqb_spec H 1) as [E|_]; [lia|].
  destruct (Nat.eqb_spec W 1) as [E|_]; [lia|].
  destruct (Nat.eqb_spec h 1) as [E|_]; [lia|].
  destruct (Nat.eqb_spec w 1) as [E|_]; [lia|].
  cbn [negb andb forallb].
  destruct (Nat.leb_spec h H), (Nat.leb_spec w W), (Nat.leb_spec H h),
    (Nat.leb_spec W w); cbn [andb orb bind]; try reflexivity; lia.
Qed.

Lemma get_initial_guess_crossed_shapes_witness :
  get_initial_guess fftconvolve_valid [[1; 2; 3]; [4; 5; 6]] [[1; 2]; [3; 4]; [5; 6]]
  = Raise ValueError.
Proof.
  apply (get_initial_guess_crossed_shapes 2 3 3 2); try lia; try concrete_shape.
Defined.

(** An axis of length 1 is left to broadcasting and takes no part in that
    check: a row of 3 pixels against a column of 2 gives a surface of 2 rows
    of 3 entries, the products of the centred pixels. *)
Example get_initial_guess_unit_axes :
  get_initial_guess fftconvolve_valid [[1; 2; 3]] [[1]; [2]]
  = Ok ([0; 2], [[- (1 / 2); 0; 1 / 2]; [1 / 2; 0; - (1 / 2)]]).
Proof.
  assert (Htarget : np_mean [[1; 2; 3]] = 2)
    by (unfold np_mean, ravel; simpl; lra).
  assert (Hroi : np_mean [[1]; [2]] = 3 / 2)
    by (unfold np_mean, ravel; simpl; lra).
  unfold get_initial_guess; rewrite Htarget, Hroi.
  cbn -[Rmult Rplus Rminus Rdiv INR].
  repeat match goal with
         | |- context [Rlt_dec ?a ?b] => destruct (Rlt_dec a b); try lra
         end.
  cbn -[Rmult Rplus Rminus Rdiv]; apply f_equal, f_equal2; entrywise; lra.
Qed.

(** ** The gradient *)

Lemma convolve2d_same_shape h w (image k : array2) :
  has_shape h w image -> has_shape h w (convolve2d_same image k).
Proof.
  intros Him; pose proof Him as [Hlen _]; unfold convolve2d_same, range.
  split; [unfold nrows; now rewrite length_map, length_seq|].
  rewrite Forall_map; apply Forall_forall; intros i Hi; apply in_seq in Hi.
  rewrite length_map, length_seq.
  apply (ncols_shape h w image); [unfold nrows in Hi; lia|assumption].
Qed.

Lemma is_2d_shape h w (a : array2) :
  has_shape h w a -> (0 < h)%nat -> is_2d a = true.
Proof.
  intros [Hlen Hrows] Hh; destruct a as [|row rest]; [simpl in Hlen; lia|].
  inversion Hrows as [|? ? Hrow Hrest]; subst; cbn [is_2d].
  apply forallb_forall; intros r Hr.
  rewrite Forall_forall in Hrest; rewrite (Hrest r Hr).
  apply Nat.eqb_refl.
Qed.

(** On 2-D inputs [convolve2d] raises nothing. *)
Lemma convolve2d_2d h w (image k : array2) :
  has_shape h w image -> (0 < h)%nat -> is_2d k = true ->
  convolve2d image k = Ok (convolve2d_same image k).
Proof.
  intros Him Hh Hk; unfold convolve2d.
  now rewrite (is_2d_shape h w image Him Hh), Hk.
Qed.

(** X22. For a non-empty image, every kernel argument that passes the guard
    and holds 2-D kernels (the default, or two rectangular custom kernels
    with at least one tap, of which the first has at least 3 rows) gives a
    gradient pair, each image of the shape of the input image. *)
Theorem get_gradient_shape (h w : nat) (image : array2) (kernel : kernel_spec)
        (prefilter_gauss : bool) :
  has_shape h w image -> (0 < h)%nat -> (0 < w)%nat ->
  kernel = central_fd \/
  (exists k0 k1 n0 m0 n1 m1,
      kernel = custom [k0; k1] /\
      has_shape n0 m0 k0 /\ (3 <= n0)%nat /\ (0 < m0)%nat /\
      has_shape n1 m1 k1 /\ (0 < n1)%nat /\ (0 < m1)%nat) ->
  exists grad, get_gradient image kernel prefilter_gauss = Ok grad /\
               grad_shape h w grad.
Proof.
  intros Him Hh Hw Hkernel.
  assert (Hgrad : forall k0 k1, is_2d k0 = true -> is_2d k1 = true ->
            exists grad,
              (g_x <- convolve2d image k0;; g_y <- convolve2d image k1;; Ok [g_x; g_y])
              = Ok grad /\ grad_shape h w grad).
  { intros k0 k1 H0 H1.
    rewrite !(convolve2d_2d h w) by assumption; cbn [bind].
    eexists; split; [reflexivity|].
    split; [reflexivity|].
    apply Forall_cons; [|apply Forall_cons; [|apply Forall_nil]];
      now apply convolve2d_same_shape. }
  destruct Hkernel as [->|(k0 & k1 & n0 & m0 & n1 & m1 & -> & Hk0 & Hn0 & _ & Hk1 & Hn1 & _)];
    unfold get_gradient.
  - cbn [bind]; apply Hgrad; destruct prefilter_gauss; reflexivity.
  - pose proof Hk0 as [Hlen0 _]; rewrite Hlen0.
    destruct (Nat.leb_spec 3 n0); [|lia].
    cbn [bind]; apply Hgrad; [apply (is_2d_shape n0 m0)|apply (is_2d_shape n1 m1)];
      assumption || lia.
Qed.

Lemma get_gradient_shape_witness :
  exists grad,
    get_gradient [[1; 2; 3]; [4; 5; 6]]
                 (custom [[[1; 0; -1]; [2; 0; -2]; [1; 0; -1]];
                          [[1; 2; 1]; [0; 0; 0]; [-1; -2; -1]]]) true
    = Ok grad /\ grad_shape 2 3 grad.
Proof.
  apply get_gradient_shape; [concrete_shape|lia|lia|].
  right; exists [[1; 0; -1]; [2; 0; -2]; [1; 0; -1]],
                [[1; 2; 1]; [0; 0; 0]; [-1; -2; -1]], 3%nat, 3%nat, 3%nat, 3%nat.
  split; [reflexivity|].
  split; [concrete_shape|]; split; [lia|]; split; [lia|].
  split; [concrete_shape|]; split; lia.
Defined.

Lemma at2_convolve2d_same h w (image k : array2) (i j : nat) :
  has_shape h w image -> (i < h)%nat -> (j < w)%nat ->
  at2 (convolve2d_same image k) i j
  = conv_full_at image k (i + (nrows k - 1) / 2) (j + (ncols k - 1) / 2).
Proof.
  intros Him Hi Hj.
  destruct (ncols_shape h w image ltac:(lia) Him) as [Hr Hc].
  unfold convolve2d_same; rewrite Hr, Hc.
  now apply (at2_tabulate
               (fun i j => conv_full_at image k (i + (nrows k - 1) / 2)
                                        (j + (ncols k - 1) / 2))).
Qed.

(** X23. With the default kernel and no Gaussian prefilter, the gradient at
    an interior pixel is the five-point difference taken in the direction of
    decreasing index: g_x[i, j] = (im[i, j+2] - 8 im[i, j+1] + 8 im[i, j-1]
    - im[i, j-2]) / 12, and likewise g_y along the rows. *)
Theorem get_gradient_plain_stencil (h w : nat) (image : array2) (i j : nat) :
  has_shape h w image -> (i < h)%nat -> (j < w)%nat ->
  exists g_x g_y,
    get_gradient image central_fd false = Ok [g_x; g_y] /\
    ((2 <= j)%nat -> (j + 2 < w)%nat ->
     at2 g_x i j
     = (at2 image i (j + 2) - 8 * at2 image i (j + 1)
        + 8 * at2 image i (j - 1) - at2 image i (j - 2)) / 12) /\
    ((2 <= i)%nat -> (i + 2 < h)%nat ->
     at2 g_y i j
     = (at2 image (i + 2) j - 8 * at2 image (i + 1) j
        + 8 * at2 image (i - 1) j - at2 image (i - 2) j) / 12).
Proof.
  intros Him Hi Hj; unfold get_gradient; cbn [bind].
  rewrite !(convolve2d_2d h w) by (assumption || lia || reflexivity); cbn [bind].
  do 2 eexists; split; [reflexivity|].
  rewrite !(at2_convolve2d_same h w) by assumption.
  unfold conv_full_at, plain_fd_kernel, transpose.
  cbn [nrows ncols length hd range seq map flat_map app nth Nat.sub Nat.div
       Nat.divmod fst at2 np_sum fold_right].
  split; intros Hlo Hhi.
  - repeat match goal with
           | |- context [(?a <=? ?b)%nat] => destruct (Nat.leb_spec a b); [|lia]
           end.
    cbn [andb].
    replace (i + 0 - 0)%nat with i by lia.
    replace (j + 2 - 0)%nat with (j + 2)%nat by lia.
    replace (j + 2 - 1)%nat with (j + 1)%nat by lia.
    replace (j + 2 - 3)%nat with (j - 1)%nat by lia.
    replace (j + 2 - 4)%nat with (j - 2)%nat by lia.
    field.
  - repeat match goal with
           | |- context [(?a <=? ?b)%nat] => destruct (Nat.leb_spec a b); [|lia]
           end.
    cbn [andb].
    replace (j + 0 - 0)%nat with j by lia.
    replace (i + 2 - 0)%nat with (i + 2)%nat by lia.
    replace (i + 2 - 1)%nat with (i + 1)%nat by lia.
    replace (i + 2 - 3)%nat with (i - 1)%nat by lia.
    replace (i + 2 - 4)%nat with (i - 2)%nat by lia.
    field.
Qed.

Lemma get_gradient_plain_stencil_witness :
  exists g_x g_y,
    get_gradient [[1; 2; 4; 8; 16]; [0; 1; 0; 1; 0]; [3; 3; 3; 3; 3];
                  [5; 4; 3; 2; 1]; [9; 9; 9; 9; 9]] central_fd false
    = Ok [g_x; g_y] /\
    ((2 <= 2)%nat -> (2 + 2 < 5)%nat ->
     at2 g_x 2 2
     = (at2 [[1; 2; 4; 8; 16]; [0; 1; 0; 1; 0]; [3; 3; 3; 3; 3];
             [5; 4; 3; 2; 1]; [9; 9; 9; 9; 9]] 2 (2 + 2)
        - 8 * at2 [[1; 2; 4; 8; 16]; [0; 1; 0; 1; 0]; [3; 3; 3; 3; 3];
                   [5; 4; 3; 2; 1]; [9; 9; 9; 9; 9]] 2 (2 + 1)
        + 8 * at2 [[1; 2; 4; 8; 16]; [0; 1; 0; 1; 0]; [3; 3; 3; 3; 3];
                   [5; 4; 3; 2; 1]; [9; 9; 9; 9; 9]] 2 (2 - 1)
        - at2 [[1; 2; 4; 8; 16]; [0; 1; 0; 1; 0]; [3; 3; 3; 3; 3];
               [5; 4; 3; 2; 1]; [9; 9; 9; 9; 9]] 2 (2 - 2)) / 12) /\
    ((2 <= 2)%nat -> (2 + 2 < 5)%nat ->
     at2 g_y 2 2
     = (at2 [[1; 2; 4; 8; 16]; [0; 1; 0; 1; 0]; [3; 3; 3; 3; 3];
             [5; 4; 3; 2; 1]; [9; 9; 9; 9; 9]] (2 + 2) 2
        - 8 * at2 [[1; 2; 4; 8; 16]; [0; 1; 0; 1; 0]; [3; 3; 3; 3; 3];
                   [5; 4; 3; 2; 1]; [9; 9; 9; 9; 9]] (2 + 1) 2
        + 8 * at2 [[1; 2; 4; 8; 16]; [0; 1; 0; 1; 0]; [3; 3; 3; 3; 3];
                   [5; 4; 3; 2; 1]; [9; 9; 9; 9; 9]] (2 - 1) 2
        - at2 [[1; 2; 4; 8; 16]; [0; 1; 0; 1; 0]; [3; 3; 3; 3; 3];
               [5; 4; 3; 2; 1]; [9; 9; 9; 9; 9]] (2 - 2) 2) / 12).
Proof.
  apply (get_gradient_plain_stencil 5 5); [concrete_shape|lia|lia].
Defined.

(** X24. With the default kernel and the Gaussian prefilter (the default
    call), the gradient at an interior pixel is the weighted difference
    g_x[i, j] = 0.14086616 (im[i, j-2] - im[i, j+2])
                + 0.20863973 (im[i, j-1] - im[i, j+1]),
    and likewise g_y along the rows. *)
Theorem get_gradient_gauss_stencil (h w : nat) (image : array2) (i j : nat) :
  has_shape h w image -> (i < h)%nat -> (j < w)%nat ->
  exists g_x g_y,
    get_gradient image central_fd true = Ok [g_x; g_y] /\
    ((2 <= j)%nat -> (j + 2 < w)%nat ->
     at2 g_x i j
     = 0.14086616 * (at2 image i (j - 2) - at2 image i (j + 2))
       + 0.20863973 * (at2 image i (j - 1) - at2 image i (j + 1))) /\
    ((2 <= i)%nat -> (i + 2 < h)%nat ->
     at2 g_y i j
     = 0.14086616 * (at2 image (i - 2) j - at2 image (i + 2) j)
       + 0.20863973 * (at2 image (i - 1) j - at2 image (i + 1) j)).
Proof.
  intros Him Hi Hj; unfold get_gradient; cbn [bind].
  rewrite !(convolve2d_2d h w) by (assumption || lia || reflexivity); cbn [bind].
  do 2 eexists; split; [reflexivity|].
  rewrite !(at2_convolve2d_same h w) by assumption.
  unfold conv_full_at, gauss_fd_kernel, transpose.
  cbn [nrows ncols length hd range seq map flat_map app nth Nat.sub Nat.div
       Nat.divmod fst at2 np_sum fold_right].
  split; intros Hlo Hhi.
  - repeat match goal with
           | |- context [(?a <=? ?b)%nat] => destruct (Nat.leb_spec a b); [|lia]
           end.
    cbn [andb].
    replace (i + 0 - 0)%nat with i by lia.
    replace (j + 2 - 0)%nat with (j + 2)%nat by lia.
    replace (j + 2 - 1)%nat with (j + 1)%nat by lia.
    replace (j + 2 - 3)%nat with (j - 1)%nat by lia.
    replace (j + 2 - 4)%nat with (j - 2)%nat by lia.
    lra.
  - repeat match goal with
           | |- context [(?a <=? ?b)%nat] => destruct (Nat.leb_spec a b); [|lia]
           end.
    cbn [andb].
    replace (j + 0 - 0)%nat with j by lia.
    replace (i + 2 - 0)%nat with (i + 2)%nat by lia.
    replace (i + 2 - 1)%nat with (i + 1)%nat by lia.
    replace (i + 2 - 3)%nat with (i - 1)%nat by lia.
    replace (i + 2 - 4)%nat with (i - 2)%nat by lia.
    lra.
Qed.

Lemma get_gradient_gauss_stencil_witness :
  exists g_x g_y,
    get_gradient [[1; 2; 4; 8; 16]] central_fd true = Ok [g_x; g_y] /\
    ((2 <= 2)%nat -> (2 + 2 < 5)%nat ->
     at2 g_x 0 2
     = 0.14086616 * (at2 [[1; 2; 4; 8; 16]] 0 (2 - 2) - at2 [[1; 2; 4; 8; 16]] 0 (2 + 2))
       + 0.20863973 * (at2 [[1; 2; 4; 8; 16]] 0 (2 - 1) - at2 [[1; 2; 4; 8; 16]] 0 (2 + 1))) /\
    ((2 <= 0)%nat -> (0 + 2 < 1)%nat ->
     at2 g_y 0 2
     = 0.14086616 * (at2 [[1; 2; 4; 8; 16]] (0 - 2) 2 - at2 [[1; 2; 4; 8; 16]] (0 + 2) 2)
       + 0.20863973 * (at2 [[1; 2; 4; 8; 16]] (0 - 1) 2 - at2 [[1; 2; 4; 8; 16]] (0 + 1) 2)).
Proof.
  apply (get_gradient_gauss_stencil 1 5); [concrete_shape|lia|lia].
Defined.

(** ** The steepest-descent images *)

Lemma at2_zip_with (f : R -> R -> R) h w (a b : array2) (i j : nat) :
  has_shape h w a -> has_shape h w b -> (i < h)%nat -> (j < w)%nat ->
  at2 (zip_with (zip_with f) a b) i j = f (at2 a i j) (at2 b i j).
Proof.
  intros Ha Hb Hi Hj.
  pose proof (has_shape_nth h w a i Ha Hi) as Hra.
  pose proof (has_shape_nth h w b i Hb Hi) as Hrb.
  destruct Ha as [Hla _], Hb as [Hlb _]; unfold at2.
  assert (Hrow : nth i (zip_with (zip_with f) a b) []
                 = zip_with f (nth i a []) (nth i b [])).
  { clear Hra Hrb Hj; subst h; revert b i Hlb Hi.
    induction a as [|ra a IH]; intros [|rb b] [|i] Hlb Hi; simpl in *;
      try lia; [reflexivity|apply IH; lia]. }
  rewrite Hrow; apply nth_zip_with; lia.
Qed.

Lemma zip_with_shape (f : R -> R -> R) h w (a b : array2) :
  has_shape h w a -> has_shape h w b -> has_shape h w (zip_with (zip_with f) a b).
Proof.
  intros [Ha Hra] [Hb Hrb]; subst h; split; [now apply zip_with_length|].
  revert b Hb Hrb; induction Hra as [|ra a Hlen _ IH]; intros [|rb b] Hb Hrb;
    simpl in *; try discriminate; constructor.
  - inversion Hrb; subst; apply zip_with_length; congruence.
  - inversion Hrb; subst; apply IH; [lia|assumption].
Qed.

(** On matching shapes [sd_images] raises nothing: plane [k] of the result is
    [gx * jx[k] + gy * jy[k]]. *)
Lemma sd_images_same_shape n h w (gx gy : array2) (jx jy : array3) :
  has_shape h w gx -> has_shape h w gy ->
  length jx = n -> length jy = n ->
  Forall (has_shape h w) jx -> Forall (has_shape h w) jy ->
  sd_images [gx; gy] [jx; jy]
  = Ok (zip_with (fun px py =>
                    zip_with (zip_with Rplus)
                             (zip_with (zip_with Rmult) gx px)
                             (zip_with (zip_with Rmult) gy py))
                 jx jy).
Proof.
  intros Hgx Hgy Hnx Hny Hjx Hjy; unfold sd_images.
  rewrite (mapM_ok (np_mul gx) (zip_with (zip_with Rmult) gx))
    by (eapply Forall_impl; [|exact Hjx];
        intros p Hp; now apply (np_binop_same_shape Rmult h w)).
  rewrite (mapM_ok (np_mul gy) (zip_with (zip_with Rmult) gy))
    by (eapply Forall_impl; [|exact Hjy];
        intros p Hp; now apply (np_binop_same_shape Rmult h w)).
  cbn [bind].
  rewrite broadcast_same by (rewrite !length_map; congruence).
  rewrite (zipM_ok _ (zip_with (zip_with Rplus))).
  - f_equal; apply zip_with_maps.
  - apply Forall2_same_length; [rewrite !length_map; congruence|].
    intros x y Hx Hy; apply in_map_iff in Hx, Hy.
    destruct Hx as (px & <- & Hpx), Hy as (py & <- & Hpy).
    rewrite Forall_forall in Hjx, Hjy.
    apply (np_binop_same_shape Rplus h w); apply zip_with_shape; auto.
Qed.

(** X25. For a gradient pair and a Jacobian of matching shapes,
    [sd_images] returns one image per parameter, each of that shape, whose
    pixel (i, j) is gx[i,j] * jx[k][i,j] + gy[i,j] * jy[k][i,j]. *)
Theorem sd_images_pixels (n h w : nat) (gx gy : array2) (jx jy : array3) :
  has_shape h w gx -> has_shape h w gy ->
  length jx = n -> length jy = n ->
  Forall (has_shape h w) jx -> Forall (has_shape h w) jy ->
  exists sd_image,
    sd_images [gx; gy] [jx; jy] = Ok sd_image /\
    length sd_image = n /\ Forall (has_shape h w) sd_image /\
    forall k i j, (k < n)%nat -> (i < h)%nat -> (j < w)%nat ->
      at2 (nth k sd_image []) i j
      = at2 gx i j * at2 (nth k jx []) i j + at2 gy i j * at2 (nth k jy []) i j.
Proof.
  intros Hgx Hgy Hnx Hny Hjx Hjy.
  eexists; split; [exact (sd_images_same_shape n h w gx gy jx jy
                            Hgx Hgy Hnx Hny Hjx Hjy)|].
  assert (Hplane : forall k, (k < n)%nat ->
            nth k (zip_with (fun px py =>
                     zip_with (zip_with Rplus)
                              (zip_with (zip_with Rmult) gx px)
                              (zip_with (zip_with Rmult) gy py)) jx jy) []
            = zip_with (zip_with Rplus)
                       (zip_with (zip_with Rmult) gx (nth k jx []))
                       (zip_with (zip_with Rmult) gy (nth k jy []))).
  { clear Hjx Hjy; subst n; revert jy Hny.
    induction jx as [|px jx IH]; intros [|py jy] Hny [|k] Hk; simpl in *;
      try lia; [reflexivity|apply IH; lia]. }
  assert (Hin : forall k (l : array3), (k < n)%nat -> length l = n ->
                                      Forall (has_shape h w) l ->
                                      has_shape h w (nth k l [])).
  { intros k l Hk Hl Hall; rewrite Forall_forall in Hall.
    apply Hall, nth_In; lia. }
  assert (Hlen : length (zip_with (fun px py =>
                     zip_with (zip_with Rplus)
                              (zip_with (zip_with Rmult) gx px)
                              (zip_with (zip_with Rmult) gy py)) jx jy) = n).
  { transitivity (length jx);
      [apply zip_with_length; exact (eq_trans Hnx (eq_sym Hny))|exact Hnx]. }
  split; [exact Hlen|]; split.
  - apply Forall_forall; intros p Hp.
    destruct (In_nth _ _ [] Hp) as (k & Hk & <-).
    rewrite Hlen in Hk.
    refine (eq_ind_r (has_shape h w) _ (Hplane k Hk)).
    apply zip_with_shape; apply zip_with_shape; auto.
  - intros k i j Hk Hi Hj.
    etransitivity; [exact (f_equal (fun p => at2 p i j) (Hplane k Hk))|].
    rewrite (at2_zip_with Rplus h w) by (try apply zip_with_shape; auto).
    now rewrite !(at2_zip_with Rmult h w) by auto.
Qed.

Lemma sd_images_pixels_witness :
  exists sd_image,
    sd_images [[[1; 2]]; [[3; 4]]] [[[[5; 6]]; [[7; 8]]]; [[[9; 1]]; [[2; 3]]]]
    = Ok sd_image /\
    length sd_image = 2%nat /\ Forall (has_shape 1 2) sd_image /\
    forall k i j, (k < 2)%nat -> (i < 1)%nat -> (j < 2)%nat ->
      at2 (nth k sd_image []) i j
      = at2 [[1; 2]] i j * at2 (nth k [[[5; 6]]; [[7; 8]]] []) i j
        + at2 [[3; 4]] i j * at2 (nth k [[[9; 1]]; [[2; 3]]] []) i j.
Proof.
  apply (sd_images_pixels 2 1 2); try reflexivity; try concrete_shape;
    repeat constructor.
Defined.

Lemma at2_repeat (x : R) h w (i j : nat) :
  (i < h)%nat -> (j < w)%nat -> at2 (repeat (repeat x w) h) i j = x.
Proof.
  intros Hi Hj; unfold at2.
  rewrite (nth_indep _ [] (repeat x w)) by now rewrite repeat_length.
  rewrite nth_repeat; now apply nth_repeat_lt.
Qed.

Lemma at2_meshgrid_x h w (i j : nat) :
  (i < h)%nat -> (j < w)%nat -> at2 (repeat (arange w) h) i j = INR j.
Proof.
  intros Hi Hj; unfold at2.
  rewrite (nth_indep _ [] (arange w)) by now rewrite repeat_length.
  rewrite nth_repeat; unfold arange; now apply nth_map_range.
Qed.

Lemma at2_meshgrid_y h w (i j : nat) :
  (i < h)%nat -> (j < w)%nat ->
  at2 (map (fun i => repeat (INR i) w) (range h)) i j = INR i.
Proof.
  intros Hi Hj; unfold at2, range.
  rewrite (nth_indep _ [] (repeat (INR 0) w)) by now rewrite length_map, length_seq.
  rewrite (map_nth (fun i => repeat (INR i) w)), seq_nth by assumption.
  now apply nth_repeat_lt.
Qed.

Lemma meshgrid_y_shape h w : has_shape h w (map (fun i => repeat (INR i) w) (range h)).
Proof.
  split; [unfold range; now rewrite length_map, length_seq|].
  rewrite Forall_map; apply Forall_forall; intros i _; apply repeat_length.
Qed.

(** X26. With the rigid Jacobian of the frame of the gradient,
    [sd_images] raises nothing and returns three images: the one for vy is
    gy, the one for ux is gx, and the one for phi is x * gy - y * gx, where
    x is the column and y the row of the pixel. *)
Theorem sd_images_rigid (h w : nat) (gx gy : array2) :
  has_shape h w gx -> has_shape h w gy ->
  exists sd_vy sd_ux sd_phi,
    sd_images [gx; gy] (jacobian_rigid h w) = Ok [sd_vy; sd_ux; sd_phi] /\
    forall i j, (i < h)%nat -> (j < w)%nat ->
      at2 sd_vy i j = at2 gy i j /\
      at2 sd_ux i j = at2 gx i j /\
      at2 sd_phi i j = INR j * at2 gy i j - INR i * at2 gx i j.
Proof.
  intros Hgx Hgy.
  destruct (jacobian_rigid_shape h w) as [_ Hplanes].
  unfold jacobian_rigid in *.
  inversion Hplanes as [|? ? [_ Hjx] Hrest]; subst.
  inversion Hrest as [|? ? [_ Hjy] _]; subst.
  rewrite (sd_images_same_shape 3 h w) by (assumption || reflexivity).
  cbn [zip_with].
  do 3 eexists; split; [reflexivity|].
  inversion Hjx as [|? ? Hzeros Hjx1]; inversion Hjx1 as [|? ? Hones Hjx2];
    inversion Hjx2 as [|? ? Hnegy _]; subst.
  inversion Hjy as [|? ? _ Hjy1]; inversion Hjy1 as [|? ? _ Hjy2];
    inversion Hjy2 as [|? ? Hx _]; subst.
  intros i j Hi Hj.
  rewrite !(at2_zip_with Rplus h w) by (try apply zip_with_shape; assumption).
  rewrite !(at2_zip_with Rmult h w) by assumption.
  rewrite (at2_map Ropp h w) by (try assumption; apply meshgrid_y_shape).
  unfold np_zeros, np_ones.
  rewrite !at2_repeat, at2_meshgrid_x, at2_meshgrid_y by assumption.
  repeat split; ring.
Qed.

Lemma sd_images_rigid_witness :
  exists sd_vy sd_ux sd_phi,
    sd_images [[[1; 2]; [3; 4]]; [[5; 6]; [7; 8]]] (jacobian_rigid 2 2)
    = Ok [sd_vy; sd_ux; sd_phi] /\
    forall i j, (i < 2)%nat -> (j < 2)%nat ->
      at2 sd_vy i j = at2 [[5; 6]; [7; 8]] i j /\
      at2 sd_ux i j = at2 [[1; 2]; [3; 4]] i j /\
      at2 sd_phi i j
      = INR j * at2 [[5; 6]; [7; 8]] i j - INR i * at2 [[1; 2]; [3; 4]] i j.
Proof.
  apply (sd_images_rigid 2 2); concrete_shape.
Defined.

(** ** Arguments that do not fit *)

(** X27. [warp_update] raises ValueError when some row of [inv_H] is not as
    long as [b], and IndexError when [inv_H] has rows as long as [b] but
    fewer than 3 of them, so that the increment lacks a parameter. *)
Theorem warp_update_bad_arguments (inv_H : array2) (b : vec) (warp : array2) :
  (Exists (fun row => length row <> length b) inv_H ->
   warp_update inv_H b warp = Raise ValueError) /\
  (Forall (fun row => length row = length b) inv_H -> (length inv_H < 3)%nat ->
   warp_update inv_H b warp = Raise IndexError).
Proof.
  split.
  - intros Hbad; unfold warp_update, np_dot_vec.
    replace (forallb (fun row => (length row =? length b)%nat) inv_H) with false;
      [reflexivity|].
    symmetry; apply not_true_is_false; intros Hall.
    rewrite forallb_forall in Hall.
    apply Exists_exists in Hbad; destruct Hbad as (row & Hin & Hlen).
    apply Hall, Nat.eqb_eq in Hin; contradiction.
  - intros Hrows Hlen; unfold warp_update, np_dot_vec.
    replace (forallb (fun row => (length row =? length b)%nat) inv_H) with true.
    + destruct inv_H as [|r0 [|r1 [|r2 m]]]; try reflexivity.
      simpl in Hlen; lia.
    + symmetry; apply forallb_forall; intros row Hin.
      rewrite Forall_forall in Hrows; apply Nat.eqb_eq; now apply Hrows.
Qed.

Lemma warp_update_bad_arguments_witness :
  warp_update identity_3x3 [1; 2] identity_3x3 = Raise ValueError /\
  warp_update [[1; 0]; [0; 1]] [1; 2] identity_3x3 = Raise IndexError.
Proof.
  split.
  - apply (proj1 (warp_update_bad_arguments identity_3x3 [1; 2] identity_3x3)).
    left; simpl; lia.
  - apply (proj2 (warp_update_bad_arguments [[1; 0]; [0; 1]] [1; 2] identity_3x3));
      [repeat constructor|simpl; lia].
Defined.

(** X28. [zncc] does not check shapes itself: on two non-empty images whose
    shapes cannot be broadcast against each other it raises the ValueError
    of the element-wise product. *)
Theorem zncc_incompatible_shapes (h w h' w' : nat) (im1 im2 : array2) :
  (0 < h)%nat -> (0 < h')%nat ->
  has_shape h' w' im1 -> has_shape h w im2 ->
  ~ broadcastable h' h \/ ~ broadcastable w' w ->
  zncc im1 im2 = Raise ValueError.
Proof.
  intros Hh Hh' H1 H2 Hbad; unfold zncc.
  now rewrite (np_mul_incompatible h w h' w')
    by (try apply sub_scalar_shape; assumption).
Qed.

Lemma zncc_incompatible_shapes_witness :
  zncc [[1; 2; 3]; [4; 5; 6]] [[1; 2]; [3; 4]] = Raise ValueError.
Proof.
  apply (zncc_incompatible_shapes 2 2 2 3); try lia; try concrete_shape.
  right; unfold broadcastable; lia.
Defined.
